(** * NuBanner course-availability checker: a shallow embedding of
    [new_nu_check/new_main.go].

    The file models
    - [parseAvailableSeats]: the regular expression search
      [Enrollment Seats Available:</span> <span dir="ltr"> (-?\d+) </span>]
      followed by Go's [strconv.Atoi] on the captured group;
    - the subscription registry [subscriptions : map[string]chan bool]
      guarded by [subscriptionsMux], the two HTTP handlers
      [startCourseCheckHandler] / [stopCourseCheckHandler] and the
      goroutine [checkCourseAvailability], as an interleaving semantics:
      a state holds the registry, the mutex, the channels, every handler
      goroutine and every watcher goroutine, and [step] performs one
      atomic action of one goroutine (or of the environment: a request
      arriving, a ticker firing, a network or mail call returning). *)

From Stdlib Require Import ZArith String Ascii.
From stdpp Require Import base gmap strings list.

Open Scope Z_scope.

(* ------------------------------------------------------------------ *)
(** ** parseAvailableSeats *)

Module Parse.

(** The double quote character (the regex contains [dir="ltr"]). *)
Definition dq : ascii := ascii_of_nat 34.

(** Literal text in front of the capture group, including the space
    that precedes [(-?\d+)]. *)
Definition pat_prefix : list ascii :=
  list_ascii_of_string "Enrollment Seats Available:</span> <span dir="
  ++ [dq] ++ list_ascii_of_string "ltr" ++ [dq] ++ list_ascii_of_string "> ".

(** Literal text after the capture group. *)
Definition pat_suffix : list ascii := list_ascii_of_string " </span>".

(** RE2's [\d] is the ASCII class [0-9]. *)
Definition is_digit (a : ascii) : bool :=
  let n := nat_of_ascii a in (48 <=? n)%nat && (n <=? 57)%nat.

Fixpoint strip_prefix (p s : list ascii) : option (list ascii) :=
  match p, s with
  | [], _ => Some s
  | a :: p', b :: s' => if ascii_dec a b then strip_prefix p' s' else None
  | _ :: _, [] => None
  end.

(** Maximal run of digits at the front of [s]. *)
Fixpoint digits_span (s : list ascii) : list ascii * list ascii :=
  match s with
  | a :: s' =>
      if is_digit a then let '(ds, r) := digits_span s' in (a :: ds, r)
      else ([], s)
  | [] => ([], [])
  end.

(** A match of the whole regex starting exactly at the front of [s];
    the result is the text of capture group 1.  The optional [-] and the
    greedy [\d+] admit no alternative under backtracking: skipping a
    present [-] leaves a non-digit where [\d] is needed, and a shorter
    digit run leaves a digit where the suffix needs a space. *)
Definition match_at (s : list ascii) : option (list ascii) :=
  match strip_prefix pat_prefix s with
  | None => None
  | Some s1 =>
      let '(sign, s2) :=
        match s1 with
        | a :: t => if Ascii.eqb a "-"%char then ([a], t) else ([], s1)
        | [] => ([], [])
        end in
      let '(ds, s3) := digits_span s2 in
      match ds with
      | [] => None
      | _ :: _ =>
          match strip_prefix pat_suffix s3 with
          | Some _ => Some (sign ++ ds)
          | None => None
          end
      end
  end.

(** The language of the regex read declaratively: the literal prefix, a
    group [-?\d+], the literal suffix, anything after; and the search
    succeeds when some position starts such a match. *)
Definition group_ok (g : list ascii) : Prop :=
  exists ds, (g = ds \/ g = "-"%char :: ds) /\ ds <> [] /\ Forall (fun a => is_digit a = true) ds.

Definition regex_in (s : list ascii) : Prop :=
  exists pre g post, s = pre ++ pat_prefix ++ g ++ pat_suffix ++ post /\ group_ok g.

(** [re.FindStringSubmatch]: the leftmost match, group 1. *)
Fixpoint find_submatch (s : list ascii) : option (list ascii) :=
  match match_at s with
  | Some g => Some g
  | None => match s with [] => None | _ :: t => find_submatch t end
  end.

(** The results of the Go functions [(int, error)]; a non-nil error
    carries its message (the int is then 0 or Atoi's clamped value and is
    never used by the caller). *)
Inductive result := Ok (n : Z) | Err (msg : string).

Definition is_err (r : result) : bool :=
  match r with Err _ => true | Ok _ => false end.

Definition digit_val (a : ascii) : Z := Z.of_nat (nat_of_ascii a) - 48.

Fixpoint digits_value (acc : Z) (ds : list ascii) : option Z :=
  match ds with
  | [] => Some acc
  | d :: ds' => if is_digit d then digits_value (acc * 10 + digit_val d) ds'
                else None
  end.

(** Go's [int] is 64 bits wide. *)
Definition int_min : Z := - 2 ^ 63.
Definition int_max : Z := 2 ^ 63 - 1.
Definition in_int (v : Z) : bool := (int_min <=? v) && (v <=? int_max).

(** Optional sign, then a non-empty run of digits. *)
Definition signed_value (s : list ascii) : option Z :=
  let '(neg, ds) :=
    match s with
    | a :: t =>
        if Ascii.eqb a "-"%char then (true, t)
        else if Ascii.eqb a "+"%char then (false, t)
        else (false, s)
    | [] => (false, [])
    end in
  match ds with
  | [] => None
  | _ :: _ =>
      match digits_value 0 ds with
      | Some v => Some (if neg then - v else v)
      | None => None
      end
  end.

(** [strconv.Atoi] on a 64-bit platform: strings shorter than 19 bytes
    take the fast path (no overflow possible there); longer ones go
    through [ParseInt(s, 10, 0)], which reports [ErrRange] outside the
    [int] range. *)
Definition atoi (s : list ascii) : result :=
  match signed_value s with
  | None => Err "strconv.Atoi: parsing: invalid syntax"
  | Some v =>
      if (0 <? length s)%nat && (length s <? 19)%nat then Ok v
      else if in_int v then Ok v
      else Err "strconv.Atoi: parsing: value out of range"
  end.

Definition parseAvailableSeats (htmlStr : string) : result :=
  match find_submatch (list_ascii_of_string htmlStr) with
  | None => Err "could not find available seats in HTML"
  | Some g => atoi g
  end.

End Parse.

(* ------------------------------------------------------------------ *)
(** ** The request body of a tick: [url.Values] and its encoding *)

(** [checkCourseAvailability] builds [form := url.Values{}], adds
    [term=202430] and [courseReferenceNumber=crn], and posts
    [form.Encode()].  Go strings are byte strings: here lists of [ascii].
    The decoder [url.ParseQuery] / [url.QueryUnescape] of the same package
    is modelled too, as the reading any form parser gives the body. *)
Module Form.

(** [url.Values] is [map[string][]string]; a list of (key, values)
    with distinct keys. *)
Definition Values := list (list ascii * list (list ascii)).

(** [v.Add(key, value)]: [v[key] = append(v[key], value)]. *)
Fixpoint values_add (k x : list ascii) (v : Values) : Values :=
  match v with
  | [] => [(k, [x])]
  | (k', xs) :: r =>
      if decide (k = k') then (k', xs ++ [x]) :: r
      else (k', xs) :: values_add k x r
  end.

(** [v[key]] ([nil] for a missing key). *)
Fixpoint values_get (v : Values) (k : list ascii) : list (list ascii) :=
  match v with
  | [] => []
  | (k', xs) :: r => if decide (k = k') then xs else values_get r k
  end.

Definition in_range (lo hi : nat) (c : ascii) : bool :=
  let n := nat_of_ascii c in (lo <=? n)%nat && (n <=? hi)%nat.

Definition char_in (c : ascii) (l : list ascii) : bool := existsb (Ascii.eqb c) l.

(** [shouldEscape(c, encodeQueryComponent)]: alphanumerics and the marks
    [-_.~] stay; the reserved characters [$&+,/:;=?@] are all escaped in a
    query component, and so is everything else. *)
Definition should_escape (c : ascii) : bool :=
  if in_range 97 122 c || in_range 65 90 c || in_range 48 57 c then false
  else if char_in c (list_ascii_of_string "-_.~") then false
  else if char_in c (list_ascii_of_string "$&+,/:;=?@") then true
  else true.

Definition upperhex : list ascii := list_ascii_of_string "0123456789ABCDEF".

Definition hex_char (k : nat) : ascii := nth k upperhex "0"%char.

(** What [escape] writes for one byte: [+] for a space, [%XX] for the
    other escaped bytes, the byte itself otherwise. *)
Definition escape_byte (c : ascii) : list ascii :=
  if should_escape c then
    if Ascii.eqb c " "%char then ["+"%char]
    else ["%"%char; hex_char (nat_of_ascii c / 16); hex_char (nat_of_ascii c mod 16)]
  else [c].

(** [url.QueryEscape] ([escape(s, encodeQueryComponent)]: it returns [s]
    itself when nothing needs escaping, which is the same string). *)
Definition query_escape (s : list ascii) : list ascii := flat_map escape_byte s.

Definition ishex (c : ascii) : bool :=
  in_range 48 57 c || in_range 97 102 c || in_range 65 70 c.

Definition unhex (c : ascii) : nat :=
  let n := nat_of_ascii c in
  if in_range 48 57 c then n - 48
  else if in_range 97 102 c then n - 97 + 10
  else if in_range 65 70 c then n - 65 + 10
  else 0.

(** [url.QueryUnescape] ([unescape(s, encodeQueryComponent)]): a [%] must
    be followed by two hex digits, else the whole call fails; [+] is a
    space. *)
Fixpoint query_unescape (s : list ascii) : option (list ascii) :=
  match s with
  | [] => Some []
  | c :: r =>
      if Ascii.eqb c "%"%char then
        match r with
        | h1 :: h2 :: r' =>
            if ishex h1 && ishex h2 then
              option_map (cons (ascii_of_nat (unhex h1 * 16 + unhex h2))) (query_unescape r')
            else None
        | _ => None
        end
      else if Ascii.eqb c "+"%char then option_map (cons " "%char) (query_unescape r)
      else option_map (cons c) (query_unescape r)
  end.

(** Byte-wise order of Go strings ([slices.Sort] on the keys). *)
Fixpoint bytes_leb (a b : list ascii) : bool :=
  match a, b with
  | [], _ => true
  | _ :: _, [] => false
  | x :: a', y :: b' =>
      if (nat_of_ascii x <? nat_of_ascii y)%nat then true
      else if (nat_of_ascii y <? nat_of_ascii x)%nat then false
      else bytes_leb a' b'
  end.

Fixpoint insert_by_key (kv : list ascii * list (list ascii)) (l : Values) : Values :=
  match l with
  | [] => [kv]
  | kv' :: r => if bytes_leb kv.1 kv'.1 then kv :: kv' :: r else kv' :: insert_by_key kv r
  end.

Definition sort_by_key (v : Values) : Values := fold_right insert_by_key [] v.

Definition encode_pair (k x : list ascii) : list ascii :=
  query_escape k ++ ["="%char] ++ query_escape x.

(** [if buf.Len() > 0 { buf.WriteByte('&') }], then the pair. *)
Definition write_pair (buf p : list ascii) : list ascii :=
  match buf with [] => p | _ => buf ++ ["&"%char] ++ p end.

(** [v.Encode()]: keys sorted, each key's values in order. *)
Definition encode (v : Values) : list ascii :=
  match v with
  | [] => []
  | _ =>
      fold_left (fun buf kv => fold_left (fun buf x => write_pair buf (encode_pair kv.1 x)) kv.2 buf)
                (sort_by_key v) []
  end.

(** [strings.Cut(s, sep)] for a one-byte separator. *)
Fixpoint cut (sep : ascii) (s : list ascii) : list ascii * list ascii * bool :=
  match s with
  | [] => ([], [], false)
  | c :: r =>
      if Ascii.eqb c sep then ([], r, true)
      else let '(b, a, f) := cut sep r in (c :: b, a, f)
  end.

(** The loop of [parseQuery(m, query)]; every round removes at least one
    byte from [query], so [length query] rounds suffice.  The flag is
    [err == nil]. *)
Fixpoint parse_loop (fuel : nat) (m : Values) (ok : bool) (query : list ascii) : Values * bool :=
  match fuel with
  | O => (m, ok)
  | S f =>
      match query with
      | [] => (m, ok)
      | _ =>
          let '(key, rest, _) := cut "&"%char query in
          if char_in ";"%char key then parse_loop f m false rest
          else
            match key with
            | [] => parse_loop f m ok rest
            | _ =>
                let '(k, x, _) := cut "="%char key in
                match query_unescape k with
                | None => parse_loop f m false rest
                | Some k' =>
                    match query_unescape x with
                    | None => parse_loop f m false rest
                    | Some x' => parse_loop f (values_add k' x' m) ok rest
                    end
                end
            end
      end
  end.

(** [url.ParseQuery(query)]: the values and whether [err == nil]. *)
Definition parse_query (query : list ascii) : Values * bool :=
  parse_loop (length query) [] true query.

(** The form of [checkCourseAvailability] and the body it posts. *)
Definition enrollment_form (crn : string) : Values :=
  values_add (list_ascii_of_string "courseReferenceNumber") (list_ascii_of_string crn)
    (values_add (list_ascii_of_string "term") (list_ascii_of_string "202430") []).

Definition request_body (crn : string) : list ascii := encode (enrollment_form crn).

End Form.

(* ------------------------------------------------------------------ *)
(** ** The notification mail: [strconv.Itoa] and the message *)

Module Notify.

Import Parse.

Definition digit_char (d : Z) : ascii := ascii_of_nat (48 + Z.to_nat d).

(** [formatBits] in base 10 for a magnitude [u]: the digits from the
    least significant one up; [fuel] bounds the number of digits (20 is
    enough for every 64-bit magnitude). *)
Fixpoint dec_digits (fuel : nat) (u : Z) (acc : list ascii) : list ascii :=
  if u <? 10 then digit_char u :: acc
  else match fuel with
       | O => acc
       | S f => dec_digits f (u / 10) (digit_char (u mod 10) :: acc)
       end.

(** [strconv.Itoa(i)] = [FormatInt(int64(i), 10)]: a [-] for a negative
    value, then the digits of its magnitude. *)
Definition itoa (n : Z) : list ascii :=
  if n <? 0 then "-"%char :: dec_digits 20 (- n) [] else dec_digits 20 n [].

Definition crlf : list ascii := [ascii_of_nat 13; ascii_of_nat 10].

Definition mail_header : list ascii := list_ascii_of_string "Subject: Course Slot Available".

Definition mail_body (availableSeats : Z) (crn : string) : list ascii :=
  list_ascii_of_string "A slot is available. There are " ++ itoa availableSeats ++
  list_ascii_of_string " seats available for you subscribe course: " ++ list_ascii_of_string crn.

(** [message] of [sendEmailNotification]. *)
Definition message (availableSeats : Z) (crn : string) : list ascii :=
  mail_header ++ crlf ++ crlf ++ mail_body availableSeats crn.

End Notify.

(* ------------------------------------------------------------------ *)
(** ** Registry, handlers and watchers *)

Module Server.

Import Parse.

(** What the checker call of one tick yields: the HTTP transport
    (request creation, [client.Do], [ReadAll]) either fails ([None]) or
    returns the body, which [parseAvailableSeats] turns into a count. *)
Definition availability (r : option string) : option Z :=
  match r with
  | None => None
  | Some body =>
      match parseAvailableSeats body with
      | Ok n => Some n
      | Err _ => None
      end
  end.

(** Program point of a [checkCourseAvailability] goroutine. *)
Inductive wpc :=
  | WSelect               (* blocked in the [select] of the loop *)
  | WChecking             (* inside the tick branch, HTTP call in flight *)
  | WNotifying (n : Z)    (* inside [sendEmailNotification] *)
  | WDone.                (* returned *)

Record watcher := mkW { w_email : string; w_crn : string; w_pc : wpc }.

(** HTTP responses of the two handlers. *)
Inductive response := RStarted | RAlreadyActive | RStopped | RNotFound | RBadRequest.

(** Program point of a handler goroutine (one per HTTP request). *)
Inductive hpc :=
  | HStart (email crn : string)            (* startCourseCheckHandler entry *)
  | HSpawn (email crn : string) (c : nat)  (* mutex released, before [go] *)
  | HStop (email : string)                 (* stopCourseCheckHandler entry *)
  | HSend (email : string) (c : nat)       (* holds mutex, at [stopChan <- true] *)
  | HClose (email : string) (c : nat)      (* holds mutex, at [close(stopChan)] *)
  | HDelete (email : string) (c : nat)     (* holds mutex, at [delete] *)
  | HDone (r : response).

(** Observable events, newest first in the trace. *)
Inductive event :=
  | ECheck (c : nat) (crn : string)            (* availability request sent *)
  | ECheckRes (c : nat) (r : option Z)         (* its outcome *)
  | ENotify (c : nat) (email : string) (n : Z) (crn : string) (ok : bool)
                                               (* sendEmailNotification *)
  | ESend (c : nat)                            (* [stopChan <- true] completed *)
  | EClose (c : nat)                           (* [close(stopChan)] *)
  | ERecvClosed (c : nat).                     (* watcher read a closed channel *)

(** Channels are named by numbers; [watchers] maps each channel made by a
    Start to the goroutine it was passed to. *)
Record state := mkS {
  reg : gmap string nat;        (* subscriptions *)
  locked : bool;                (* subscriptionsMux *)
  next_chan : nat;              (* next fresh channel *)
  closed : gset nat;            (* closed channels *)
  handlers : list hpc;
  watchers : gmap nat watcher;
  trace : list event }.

Definition init : state := mkS ∅ false 0 ∅ [] ∅ [].

Inductive action :=
  | AReqStart (email crn : string)   (* POST /start-course-check arrives *)
  | AReqStop (email : string)        (* POST /stop-course-check arrives *)
  | AHandler (i : nat)               (* handler goroutine i runs *)
  | ATick (c : nat)                  (* ticker of watcher c fires and is taken *)
  | ACheckResult (c : nat) (r : option string)  (* HTTP call returns *)
  | ANotifyResult (c : nat) (ok : bool)         (* SMTP call returns *)
  | ARecvClosed (c : nat).           (* watcher takes a closed [stopChan] *)

Definition set_handler (s : state) (i : nat) (h : hpc) : state :=
  mkS (reg s) (locked s) (next_chan s) (closed s) (<[i := h]> (handlers s))
      (watchers s) (trace s).

Definition set_watcher (s : state) (c : nat) (w : watcher) (evs : list event) : state :=
  mkS (reg s) (locked s) (next_chan s) (closed s) (handlers s)
      (<[c := w]> (watchers s)) (evs ++ trace s).

Definition with_pc (w : watcher) (p : wpc) : watcher := mkW (w_email w) (w_crn w) p.

(** One atomic action of handler goroutine [i] at program point [h];
    [None] when it is blocked. *)
Definition handler_step (s : state) (i : nat) (h : hpc) : option state :=
  match h with
  | HStart email crn =>
      if String.eqb email "" || String.eqb crn "" then
        Some (set_handler s i (HDone RBadRequest))
      else if locked s then None
      else
        (* Lock; lookup; Unlock on the AlreadyActive path, otherwise
           make(chan bool), insert, Unlock. *)
        match reg s !! email with
        | Some _ => Some (set_handler s i (HDone RAlreadyActive))
        | None =>
            let c := next_chan s in
            Some (mkS (<[email := c]> (reg s)) false (S c) (closed s)
                      (<[i := HSpawn email crn c]> (handlers s))
                      (watchers s) (trace s))
        end
  | HSpawn email crn c =>
      (* go checkCourseAvailability(email, crn, stopChan); reply 200 *)
      Some (mkS (reg s) (locked s) (next_chan s) (closed s)
                (<[i := HDone RStarted]> (handlers s))
                (<[c := mkW email crn WSelect]> (watchers s)) (trace s))
  | HStop email =>
      if String.eqb email "" then Some (set_handler s i (HDone RBadRequest))
      else if locked s then None
      else
        match reg s !! email with
        | None => Some (set_handler s i (HDone RNotFound))   (* Unlock; 400 *)
        | Some c =>
            Some (mkS (reg s) true (next_chan s) (closed s)
                      (<[i := HSend email c]> (handlers s))
                      (watchers s) (trace s))
        end
  | HSend email c =>
      (* unbuffered send: completes only together with the receive in the
         watcher's select, which then returns *)
      match watchers s !! c with
      | Some w =>
          match w_pc w with
          | WSelect =>
              Some (mkS (reg s) (locked s) (next_chan s) (closed s)
                        (<[i := HClose email c]> (handlers s))
                        (<[c := with_pc w WDone]> (watchers s))
                        (ESend c :: trace s))
          | _ => None
          end
      | None => None
      end
  | HClose email c =>
      Some (mkS (reg s) (locked s) (next_chan s) ({[c]} ∪ closed s)
                (<[i := HDelete email c]> (handlers s))
                (watchers s) (EClose c :: trace s))
  | HDelete email c =>
      (* delete(subscriptions, email); Unlock; reply 200 *)
      Some (mkS (delete email (reg s)) false (next_chan s) (closed s)
                (<[i := HDone RStopped]> (handlers s))
                (watchers s) (trace s))
  | HDone _ => None
  end.

Definition add_handler (s : state) (h : hpc) : state :=
  mkS (reg s) (locked s) (next_chan s) (closed s) (handlers s ++ [h])
      (watchers s) (trace s).

Definition step (s : state) (a : action) : option state :=
  match a with
  | AReqStart email crn => Some (add_handler s (HStart email crn))
  | AReqStop email => Some (add_handler s (HStop email))
  | AHandler i =>
      match handlers s !! i with
      | Some h => handler_step s i h
      | None => None
      end
  | ATick c =>
      match watchers s !! c with
      | Some w =>
          match w_pc w with
          | WSelect => Some (set_watcher s c (with_pc w WChecking) [ECheck c (w_crn w)])
          | _ => None
          end
      | None => None
      end
  | ACheckResult c r =>
      match watchers s !! c with
      | Some w =>
          match w_pc w with
          | WChecking =>
              let res := availability r in
              let p := match res with
                       | None => WDone                 (* log; return *)
                       | Some n => if 0 <? n then WNotifying n else WSelect
                       end in
              Some (set_watcher s c (with_pc w p) [ECheckRes c res])
          | _ => None
          end
      | None => None
      end
  | ANotifyResult c ok =>
      match watchers s !! c with
      | Some w =>
          match w_pc w with
          | WNotifying n =>
              (* the error of SendMail is only logged *)
              Some (set_watcher s c (with_pc w WSelect)
                      [ENotify c (w_email w) n (w_crn w) ok])
          | _ => None
          end
      | None => None
      end
  | ARecvClosed c =>
      match watchers s !! c with
      | Some w =>
          match w_pc w with
          | WSelect =>
              if bool_decide (c ∈ closed s)
              then Some (set_watcher s c (with_pc w WDone) [ERecvClosed c])
              else None
          | _ => None
          end
      | None => None
      end
  end.

Fixpoint exec (s : state) (acts : list action) : option state :=
  match acts with
  | [] => Some s
  | a :: acts' => match step s a with Some s' => exec s' acts' | None => None end
  end.

Inductive reachable : state -> Prop :=
  | reach_init : reachable init
  | reach_step s a s' : reachable s -> step s a = Some s' -> reachable s'.

(** Program points of a Stop handler inside its critical section. *)
Definition crit (h : hpc) : bool :=
  match h with HSend _ _ | HClose _ _ | HDelete _ _ => true | _ => false end.

#[global] Instance event_eq_dec : EqDecision event.
Proof. solve_decision. Defined.

Definition ev_count (ev : event) (tr : list event) : nat :=
  length (filter (fun x => x = ev) tr).

(** Invariant of the reachable states. *)
Record Inv (s : state) : Prop := {
  inv_fresh_w : forall c w, watchers s !! c = Some w -> (c < next_chan s)%nat;
  inv_fresh_reg : forall e c, reg s !! e = Some c -> (c < next_chan s)%nat;
  inv_reg_inj : forall e1 e2 c, reg s !! e1 = Some c -> reg s !! e2 = Some c -> e1 = e2;
  inv_spawn : forall i e t c, handlers s !! i = Some (HSpawn e t c) ->
    reg s !! e = Some c /\ watchers s !! c = None;
  inv_spawn_uniq : forall i j e1 t1 e2 t2 c,
    handlers s !! i = Some (HSpawn e1 t1 c) -> handlers s !! j = Some (HSpawn e2 t2 c) -> i = j;
  inv_live : forall c w, watchers s !! c = Some w -> w_pc w <> WDone ->
    reg s !! w_email w = Some c;
  inv_lock : locked s = true <-> exists i h, handlers s !! i = Some h /\ crit h = true;
  inv_crit_uniq : forall i j hi hj, handlers s !! i = Some hi -> crit hi = true ->
    handlers s !! j = Some hj -> crit hj = true -> i = j;
  inv_send : forall i e c, handlers s !! i = Some (HSend e c) -> reg s !! e = Some c;
  inv_after_send : forall i e c,
    (handlers s !! i = Some (HClose e c) \/ handlers s !! i = Some (HDelete e c)) ->
    reg s !! e = Some c /\ exists w, watchers s !! c = Some w /\ w_pc w = WDone;
  inv_esend : forall c, ESend c ∈ trace s -> exists w, watchers s !! c = Some w /\ w_pc w = WDone;
  inv_esend_once : forall c, (ev_count (ESend c) (trace s) <= 1)%nat;
  inv_eclose_once : forall c, (ev_count (EClose c) (trace s) <= 1)%nat;
  inv_eclose : forall c, EClose c ∈ trace s ->
    (forall i e, handlers s !! i <> Some (HSend e c) /\ handlers s !! i <> Some (HClose e c)) /\
    (forall e, reg s !! e = Some c -> exists i, handlers s !! i = Some (HDelete e c));
  inv_eclose_w : forall c, EClose c ∈ trace s -> exists w, watchers s !! c = Some w;
  inv_reg_nonempty : reg s !! "" = None
}.

(** The channel an event is about. *)
Definition ev_chan (ev : event) : nat :=
  match ev with
  | ECheck c _ | ECheckRes c _ | ENotify c _ _ _ _ | ESend c | EClose c
  | ERecvClosed c => c
  end.

(** The events of channel [c], oldest first. *)
Definition chron (c : nat) (tr : list event) : list event :=
  rev (filter (fun ev => ev_chan ev = c) tr).

(** The loop of [checkCourseAvailability] for [email]/[crn], read off the
    events of its channel: one move per event ([EClose] is the Stop
    handler's and leaves the watcher where it is). *)
Definition wmove (email crn : string) (p : wpc) (ev : event) : option wpc :=
  match p, ev with
  | _, EClose _ => Some p
  | WSelect, ECheck _ t => if String.eqb t crn then Some WChecking else None
  | WSelect, ESend _ => Some WDone
  | WSelect, ERecvClosed _ => Some WDone
  | WChecking, ECheckRes _ None => Some WDone
  | WChecking, ECheckRes _ (Some n) => Some (if 0 <? n then WNotifying n else WSelect)
  | WNotifying n, ENotify _ e n' t _ =>
      if String.eqb e email && (n' =? n) && String.eqb t crn then Some WSelect else None
  | _, _ => None
  end.

Fixpoint wrun (email crn : string) (p : wpc) (l : list event) : option wpc :=
  match l with
  | [] => Some p
  | ev :: l' => match wmove email crn p ev with
                | Some p' => wrun email crn p' l'
                | None => None
                end
  end.

(** Events up to (excluding) the first availability request. *)
Fixpoint before_tick (l : list event) : list event :=
  match l with
  | [] => []
  | ECheck _ _ :: _ => []
  | ev :: l' => ev :: before_tick l'
  end.

(** The [sendEmailNotification] calls among [l], as (email, seats, crn). *)
Fixpoint notifications (l : list event) : list (string * Z * string) :=
  match l with
  | [] => []
  | ENotify _ e n t _ :: l' => (e, n, t) :: notifications l'
  | _ :: l' => notifications l'
  end.

Definition is_running (w : watcher) : bool :=
  match w_pc w with WDone => false | _ => true end.

(** Number of watcher goroutines for [email] that have not returned. *)
Definition running_for (s : state) (email : string) : nat :=
  List.length (List.filter (fun cw => is_running (snd cw) && String.eqb (w_email (snd cw)) email)
                           (map_to_list (watchers s))).

(** A registration left behind by a watcher that returned on its own:
    the key still maps to the channel, the goroutine has exited, and no
    Stop has got past the send on that channel. *)
Definition zombie (s : state) (e : string) (c : nat) : Prop :=
  e <> "" /\ reg s !! e = Some c /\
  (exists w, watchers s !! c = Some w /\ w_pc w = WDone) /\
  forall j e', handlers s !! j <> Some (HClose e' c) /\ handlers s !! j <> Some (HDelete e' c).

(** What an event says about the watcher of its channel: a request is for
    the watcher's CRN, a notification goes to its email for its CRN with a
    positive count. *)
Definition ev_ok (w : watcher) (ev : event) : Prop :=
  match ev with
  | ECheck _ t => t = w_crn w
  | ENotify _ e n t _ => e = w_email w /\ t = w_crn w /\ 0 < n
  | _ => True
  end.

(** Further facts of the reachable states. *)
Record Inv2 (s : state) : Prop := {
  inv2_notif_pos : forall c w n, watchers s !! c = Some w -> w_pc w = WNotifying n -> 0 < n;
  inv2_closed_done : forall c, c ∈ closed s ->
    exists w, watchers s !! c = Some w /\ w_pc w = WDone;
  inv2_events : forall ev, ev ∈ trace s ->
    exists w, watchers s !! ev_chan ev = Some w /\ ev_ok w ev;
  inv2_no_recv_closed : forall c, ERecvClosed c ∉ trace s
}.

End Server.

(* ------------------------------------------------------------------ *)
(** ** Concrete runs used as witnesses and counterexamples *)

Module Runs.

Import Parse Server.

(** The state a schedule reaches from [init] (when no action is blocked). *)
Definition run_of (acts : list action) : state :=
  match exec init acts with Some s => s | None => init end.

(** A response body carrying [n] in the place the regex looks at. *)
Definition seats_page (n : string) : string :=
  string_of_list_ascii (pat_prefix ++ list_ascii_of_string n ++ pat_suffix).

(** Start "a" for CRN "1": the handler locks, registers channel 0, spawns. *)
Definition run_started : list action := [AReqStart "a" "1"; AHandler 0; AHandler 0].

(** ... then the first tick's HTTP call fails: the watcher returns. *)
Definition run_zombie : list action := run_started ++ [ATick 0; ACheckResult 0 None].

End Runs.

(* ------------------------------------------------------------------ *)
(** ** The invariant of reachable states *)

Module ServerInv.

Import Parse Server.

Lemma list_insert_lookup {A} (l : list A) i j (x h : A) :
  l !! i = Some h -> <[i := x]> l !! j = if decide (i = j) then Some x else l !! j.
Proof.
  intros Hi. case_decide as Hij.
  - subst. apply list_lookup_insert_eq. eapply lookup_lt_Some; eauto.
  - by apply list_lookup_insert_ne.
Qed.

Lemma list_snoc_lookup {A} (l : list A) j (x : A) :
  (l ++ [x]) !! j = if decide (j = length l) then Some x else l !! j.
Proof.
  case_decide as Hj.
  - subst. rewrite lookup_app_r; [|lia]. by rewrite Nat.sub_diag.
  - destruct (decide (j < length l)%nat).
    + by rewrite lookup_app_l.
    + rewrite lookup_app_r; [|lia]. rewrite (lookup_ge_None_2 l j); [|lia].
      apply lookup_ge_None_2. simpl. lia.
Qed.

Lemma ev_count_cons ev x tr :
  ev_count ev (x :: tr) = ((if decide (x = ev) then 1 else 0) + ev_count ev tr)%nat.
Proof. unfold ev_count. rewrite filter_cons. case_decide; simpl; lia. Qed.

Lemma ev_count_not_in ev tr : ev ∉ tr -> ev_count ev tr = 0%nat.
Proof.
  induction tr as [|x tr IH]; intros Hn; [done|].
  rewrite ev_count_cons. rewrite elem_of_cons in Hn.
  case_decide; [subst; tauto|]. simpl. apply IH. tauto.
Qed.

Lemma Inv_init : Inv init.
Proof.
  constructor; simpl; intros *; try rewrite lookup_empty; try done.
  all: try (intros; set_solver).
Qed.

(** Requests only append a handler at a non-critical program point. *)
Lemma Inv_add_handler s h :
  Inv s -> crit h = false -> (forall e t c, h <> HSpawn e t c) ->
  (forall e c, h <> HSend e c /\ h <> HClose e c /\ h <> HDelete e c) ->
  Inv (add_handler s h).
Proof.
  intros I Hc Hsp Hst. destruct I. unfold add_handler.
  constructor; simpl; try assumption; intros *; rewrite ?list_snoc_lookup.
  - intros H. repeat case_decide; [injection H as ->; by destruct (Hsp e t c)|]. eauto.
  - intros H1 H2. repeat case_decide;
      try (injection H1 as ->; by destruct (Hsp e1 t1 c));
      try (injection H2 as ->; by destruct (Hsp e2 t2 c)); eauto.
  - rewrite inv_lock0. split; intros (i & h' & Hh & Hc').
    + exists i, h'. by rewrite list_snoc_lookup, decide_False
        by (intros ->; rewrite lookup_ge_None_2 in Hh by lia; done).
    + exists i, h'. rewrite list_snoc_lookup in Hh. case_decide; [congruence|]. eauto.
  - intros H1 Hc1 H2 Hc2. repeat case_decide; try congruence; eauto.
  - intros H. case_decide; [injection H as ->; by destruct (Hst e c)|]. eauto.
  - intros H. destruct H as [H|H]; case_decide;
      try (injection H as ->; by destruct (Hst e c) as (?&?&?)); eauto.
  - intros H. destruct (inv_eclose0 c H) as [Ha Hb]. split.
    + intros i e. rewrite list_snoc_lookup. case_decide.
      * destruct (Hst e c) as (?&?&?). split; congruence.
      * apply Ha.
    + intros e He. destruct (Hb e He) as [i Hi]. exists i.
      rewrite list_snoc_lookup. case_decide; [|done].
      subst. rewrite lookup_ge_None_2 in Hi by lia. done.
Qed.

Lemma ev_count_app ev l1 l2 :
  ev_count ev (l1 ++ l2) = (ev_count ev l1 + ev_count ev l2)%nat.
Proof. unfold ev_count. by rewrite filter_app, length_app. Qed.

(** A watcher goroutine that has not returned moves; it emits neither a
    send nor a close. *)
Lemma Inv_set_watcher s c w p evs :
  Inv s -> watchers s !! c = Some w -> w_pc w <> WDone ->
  (forall c', (ESend c' ∉ evs) /\ (EClose c' ∉ evs)) ->
  Inv (set_watcher s c (with_pc w p) evs).
Proof.
  intros I Hw Hl Hev. destruct I. unfold set_watcher.
  constructor; simpl; try assumption; intros *.
  - rewrite lookup_insert. case_decide; subst; eauto.
  - intros H. destruct (inv_spawn0 _ _ _ _ H) as [Hr Hn]. split; [done|].
    rewrite lookup_insert_ne; [done|]. congruence.
  - rewrite lookup_insert. case_decide; subst.
    + intros [= <-] _. simpl. eauto.
    + eauto.
  - intros H. destruct (inv_after_send0 _ _ _ H) as [Hr (w' & Hw' & Hd)].
    split; [done|]. exists w'. rewrite lookup_insert_ne; [done|].
    intros ->. congruence.
  - rewrite elem_of_app. intros [H|H]; [by destruct (Hev c0)|].
    destruct (inv_esend0 _ H) as (w' & Hw' & Hd). exists w'.
    rewrite lookup_insert_ne; [done|]. intros ->. congruence.
  - rewrite ev_count_app, ev_count_not_in; [apply inv_esend_once0|apply Hev].
  - rewrite ev_count_app, ev_count_not_in; [apply inv_eclose_once0|apply Hev].
  - rewrite elem_of_app. intros [H|H]; [by destruct (Hev c0)|]. eauto.
  - rewrite elem_of_app. intros [H|H]; [by destruct (Hev c0)|].
    destruct (inv_eclose_w0 _ H) as [w' Hw']. rewrite lookup_insert.
    case_decide; eauto.
Qed.

(** A handler outside the critical section and not about to spawn
    replies without touching the shared state. *)
Lemma Inv_handler_done s i h r :
  Inv s -> handlers s !! i = Some h -> crit h = false ->
  (forall e t c, h <> HSpawn e t c) -> Inv (set_handler s i (HDone r)).
Proof.
  intros I Hi Hc Hsp. destruct I. unfold set_handler.
  constructor; simpl; try assumption; intros *;
    rewrite ?(list_insert_lookup _ _ _ _ _ Hi).
  - case_decide; [done|]. eauto.
  - intros H1 H2. repeat case_decide; try done; eauto.
  - rewrite inv_lock0. split; intros (j & h' & Hh & Hc').
    + exists j, h'. rewrite (list_insert_lookup _ _ _ _ _ Hi).
      case_decide; [subst; congruence|done].
    + exists j, h'. rewrite (list_insert_lookup _ _ _ _ _ Hi) in Hh.
      case_decide; simplify_eq/=; eauto.
  - intros H1 Hc1 H2 Hc2. repeat case_decide; simplify_eq/=; eauto.
  - case_decide; [done|]. eauto.
  - case_decide; [intros [?|?]; done|]. eauto.
  - intros H. destruct (inv_eclose0 c H) as [Ha Hb]. split.
    + intros j e. rewrite (list_insert_lookup _ _ _ _ _ Hi).
      case_decide; [done|]. apply Ha.
    + intros e He. destruct (Hb e He) as [j Hj]. exists j.
      rewrite (list_insert_lookup _ _ _ _ _ Hi). case_decide; [|done].
      subst. rewrite Hj in Hi. by simplify_eq/=.
Qed.

(** Start, under the mutex, on a free key: insert a fresh channel. *)
Lemma Inv_start_insert s i e t :
  Inv s -> handlers s !! i = Some (HStart e t) -> locked s = false ->
  reg s !! e = None -> e <> "" ->
  Inv (mkS (<[e := next_chan s]> (reg s)) false (S (next_chan s)) (closed s)
           (<[i := HSpawn e t (next_chan s)]> (handlers s)) (watchers s) (trace s)).
Proof.
  intros I Hi Hlk He Hne. destruct I.
  assert (Hfr : forall e' c, <[e := next_chan s]> (reg s) !! e' = Some c ->
                 (c <= next_chan s)%nat).
  { intros e' c. rewrite lookup_insert. case_decide; [intros [= <-]; lia|].
    intros Hr. specialize (inv_fresh_reg0 _ _ Hr). lia. }
  constructor; simpl; try assumption; intros *;
    rewrite ?(list_insert_lookup _ _ _ _ _ Hi).
  - intros H. specialize (inv_fresh_w0 _ _ H). lia.
  - intros Hr. rewrite lookup_insert in Hr.
    case_decide; [injection Hr as <-; lia|].
    specialize (inv_fresh_reg0 _ _ Hr). lia.
  - intros Hr1 Hr2.
    destruct (decide (e = e1)) as [<-|Hn1];
      [rewrite lookup_insert_eq in Hr1 | rewrite lookup_insert_ne in Hr1 by done];
    (destruct (decide (e = e2)) as [<-|Hn2];
      [rewrite lookup_insert_eq in Hr2 | rewrite lookup_insert_ne in Hr2 by done]);
    try done.
    + injection Hr1 as <-. specialize (inv_fresh_reg0 _ _ Hr2). lia.
    + injection Hr2 as <-. specialize (inv_fresh_reg0 _ _ Hr1). lia.
    + eauto.
  - intros Hh. case_decide.
    + injection Hh as <- <- <-. rewrite lookup_insert_eq. split; [done|].
      destruct (watchers s !! next_chan s) as [w|] eqn:Hw; [|done].
      specialize (inv_fresh_w0 _ _ Hw). lia.
    + destruct (inv_spawn0 _ _ _ _ Hh) as [Hr Hn].
      rewrite lookup_insert_ne; [done|congruence].
  - intros H1 H2. repeat case_decide; simplify_eq/=; try done;
      try match goal with
      | Hx : handlers s !! _ = Some (HSpawn _ _ (next_chan s)) |- _ =>
          destruct (inv_spawn0 _ _ _ _ Hx) as [Hr _];
          specialize (inv_fresh_reg0 _ _ Hr); lia
      end.
    eauto.
  - intros Hw Hl. rewrite lookup_insert_ne; [eauto|].
    intros Heq. specialize (inv_live0 _ _ Hw Hl). rewrite <- Heq in inv_live0.
    congruence.
  - split; [done|]. intros (j & h & Hh & Hc).
    rewrite (list_insert_lookup _ _ _ _ _ Hi) in Hh.
    case_decide; simplify_eq/=. rewrite <- Hlk. apply inv_lock0. eauto.
  - intros H1 Hc1 H2 Hc2. repeat case_decide; simplify_eq/=; eauto.
  - intros Hh. case_decide; [done|]. specialize (inv_send0 _ _ _ Hh).
    rewrite lookup_insert_ne; [done|congruence].
  - intros Hh. case_decide; [destruct Hh; done|].
    destruct (inv_after_send0 _ _ _ Hh) as [Hr Hw]. split; [|done].
    rewrite lookup_insert_ne; [done|congruence].
  - intros Hc. destruct (inv_eclose0 c Hc) as [Ha Hb]. split.
    + intros j e'. rewrite (list_insert_lookup _ _ _ _ _ Hi).
      case_decide; [done|]. apply Ha.
    + intros e' He'. rewrite lookup_insert in He'. case_decide.
      * injection He' as <-. destruct (inv_eclose_w0 _ Hc) as [w Hw].
        specialize (inv_fresh_w0 _ _ Hw). lia.
      * destruct (Hb e' He') as [j Hj]. exists j.
        rewrite (list_insert_lookup _ _ _ _ _ Hi). case_decide; [|done].
        subst. congruence.
  - by rewrite lookup_insert_ne.
Qed.

(** [go checkCourseAvailability(email, crn, stopChan)]. *)
Lemma Inv_spawn s i e t c :
  Inv s -> handlers s !! i = Some (HSpawn e t c) ->
  Inv (mkS (reg s) (locked s) (next_chan s) (closed s)
           (<[i := HDone RStarted]> (handlers s))
           (<[c := mkW e t WSelect]> (watchers s)) (trace s)).
Proof.
  intros I Hi. pose proof I as I'. destruct I.
  destruct (inv_spawn0 _ _ _ _ Hi) as [Hrc Hwc].
  constructor; simpl; try assumption; intros *;
    rewrite ?(list_insert_lookup _ _ _ _ _ Hi).
  - rewrite lookup_insert. case_decide; subst; eauto.
  - intros Hh. case_decide; [done|].
    assert (c0 <> c) by (intros ->; apply H; eapply inv_spawn_uniq0; eauto).
    rewrite lookup_insert_ne by done. eauto.
  - intros H1 H2. repeat case_decide; simplify_eq/=; eauto.
  - rewrite lookup_insert. case_decide; subst.
    + intros [= <-] _. done.
    + eauto.
  - rewrite inv_lock0. split; intros (j & h' & Hh & Hc').
    + exists j, h'. rewrite (list_insert_lookup _ _ _ _ _ Hi).
      case_decide; [subst; rewrite Hi in Hh; by simplify_eq/=|done].
    + exists j, h'. rewrite (list_insert_lookup _ _ _ _ _ Hi) in Hh.
      case_decide; simplify_eq/=; eauto.
  - intros H1 Hc1 H2 Hc2. repeat case_decide; simplify_eq/=; eauto.
  - case_decide; [done|]. eauto.
  - intros Hh. case_decide; [destruct Hh; done|].
    destruct (inv_after_send0 _ _ _ Hh) as [Hr (w & Hw & Hd)].
    split; [done|]. exists w. rewrite lookup_insert_ne; [done|congruence].
  - intros Hs. destruct (inv_esend0 _ Hs) as (w & Hw & Hd). exists w.
    rewrite lookup_insert_ne; [done|congruence].
  - intros Hc. destruct (inv_eclose0 c0 Hc) as [Ha Hb]. split.
    + intros j e'. rewrite (list_insert_lookup _ _ _ _ _ Hi).
      case_decide; [done|]. apply Ha.
    + intros e' He'. destruct (Hb e' He') as [j Hj]. exists j.
      rewrite (list_insert_lookup _ _ _ _ _ Hi). case_decide; [|done].
      subst. congruence.
  - intros Hc. destruct (inv_eclose_w0 _ Hc) as [w Hw].
    rewrite lookup_insert. case_decide; eauto.
Qed.

(** Stop, under the mutex, finds the key: it keeps the mutex. *)
Lemma Inv_stop_found s i e c :
  Inv s -> handlers s !! i = Some (HStop e) -> locked s = false ->
  reg s !! e = Some c ->
  Inv (mkS (reg s) true (next_chan s) (closed s)
           (<[i := HSend e c]> (handlers s)) (watchers s) (trace s)).
Proof.
  intros I Hi Hlk He. destruct I.
  assert (Hnc : forall j h, handlers s !! j = Some h -> crit h = true -> False).
  { intros j h Hh Hc. assert (locked s = true) by (apply inv_lock0; eauto).
    congruence. }
  constructor; simpl; try assumption; intros *;
    rewrite ?(list_insert_lookup _ _ _ _ _ Hi).
  - case_decide; [done|]. eauto.
  - intros H1 H2. repeat case_decide; simplify_eq/=; eauto.
  - split; [|done]. intros _. exists i, (HSend e c).
    rewrite (list_insert_lookup _ _ _ _ _ Hi). by rewrite decide_True.
  - intros H1 Hc1 H2 Hc2. repeat case_decide; simplify_eq/=; try done;
      exfalso; eauto.
  - intros Hh. case_decide; simplify_eq/=; eauto.
  - intros Hh. case_decide; [destruct Hh; done|]. eauto.
  - intros Hc. destruct (inv_eclose0 c0 Hc) as [Ha Hb]. split.
    + intros j e'. rewrite !(list_insert_lookup _ _ _ _ _ Hi). case_decide.
      * split; [|done]. intros [= <- <-].
        destruct (Hb e He) as [k Hk]. eapply Hnc; [exact Hk|done].
      * apply Ha.
    + intros e' He'. destruct (Hb e' He') as [j Hj]. exists j.
      rewrite (list_insert_lookup _ _ _ _ _ Hi).
      case_decide; [|done]. subst. congruence.
Qed.

(** [stopChan <- true] meets the receive of the watcher's [select]. *)
Lemma Inv_send s i e c w :
  Inv s -> handlers s !! i = Some (HSend e c) ->
  watchers s !! c = Some w -> w_pc w = WSelect ->
  Inv (mkS (reg s) (locked s) (next_chan s) (closed s)
           (<[i := HClose e c]> (handlers s))
           (<[c := with_pc w WDone]> (watchers s)) (ESend c :: trace s)).
Proof.
  intros I Hi Hw Hp. destruct I.
  assert (Hlk : locked s = true) by (apply inv_lock0; exists i, (HSend e c); done).
  assert (Hns : ESend c ∉ trace s).
  { intros Hs. destruct (inv_esend0 _ Hs) as (w' & Hw' & Hd). congruence. }
  constructor; simpl; try assumption; intros *;
    rewrite ?(list_insert_lookup _ _ _ _ _ Hi).
  - rewrite lookup_insert. case_decide; subst; eauto.
  - intros Hh. case_decide; [done|].
    destruct (inv_spawn0 _ _ _ _ Hh) as [Hr Hn]. split; [done|].
    rewrite lookup_insert_ne; [done|congruence].
  - intros H1 H2. repeat case_decide; simplify_eq/=; eauto.
  - rewrite lookup_insert. case_decide; subst.
    + intros [= <-] Hd. done.
    + eauto.
  - split; [intros _|done]. exists i, (HClose e c).
    rewrite (list_insert_lookup _ _ _ _ _ Hi). by rewrite decide_True.
  - intros H1 Hc1 H2 Hc2. repeat case_decide; simplify_eq/=; try done;
      eapply inv_crit_uniq0; eauto.
  - intros Hh. case_decide; simplify_eq/=; eauto.
  - intros Hh. case_decide.
    + destruct Hh as [Hh|Hh]; simplify_eq/=. split; [eauto|].
      exists (with_pc w WDone). by rewrite lookup_insert_eq.
    + destruct (inv_after_send0 _ _ _ Hh) as [Hr (w' & Hw' & Hd)].
      split; [done|]. exists w'. rewrite lookup_insert_ne; [done|congruence].
  - rewrite elem_of_cons. intros Hs. rewrite lookup_insert.
    case_decide; [subst; eexists; done|].
    destruct Hs as [Hs|Hs]; [congruence|]. eauto.
  - rewrite ev_count_cons. specialize (inv_esend_once0 c0).
    case_decide; [|simpl; lia]. simplify_eq/=.
    rewrite ev_count_not_in by done. lia.
  - rewrite elem_of_cons. intros [Hc|Hc]; [done|].
    destruct (inv_eclose0 c0 Hc) as [Ha Hb]. split.
    + intros j e'. rewrite !(list_insert_lookup _ _ _ _ _ Hi). case_decide.
      * split; [done|]. intros [= <- <-]. subst. by destruct (Ha j e).
      * apply Ha.
    + intros e' He'. destruct (Hb e' He') as [j Hj]. exists j.
      rewrite (list_insert_lookup _ _ _ _ _ Hi).
      case_decide; [|done]. subst. congruence.
  - rewrite elem_of_cons. intros [Hc|Hc]; [done|].
    destruct (inv_eclose_w0 _ Hc) as [w' Hw']. rewrite lookup_insert.
    case_decide; eauto.
Qed.

(** [close(stopChan)]. *)
Lemma Inv_close s i e c :
  Inv s -> handlers s !! i = Some (HClose e c) ->
  Inv (mkS (reg s) (locked s) (next_chan s) ({[c]} ∪ closed s)
           (<[i := HDelete e c]> (handlers s)) (watchers s) (EClose c :: trace s)).
Proof.
  intros I Hi. destruct I.
  assert (Hlk : locked s = true) by (apply inv_lock0; exists i, (HClose e c); done).
  destruct (inv_after_send0 i e c (or_introl Hi)) as [Hrc (wc & Hwc & Hdc)].
  assert (Hnc : EClose c ∉ trace s).
  { intros Hc. destruct (inv_eclose0 _ Hc) as [Ha _]. by destruct (Ha i e). }
  constructor; simpl; try assumption; intros *;
    rewrite ?(list_insert_lookup _ _ _ _ _ Hi).
  - intros Hh. case_decide; [done|]. eauto.
  - intros H1 H2. repeat case_decide; simplify_eq/=; eauto.
  - split; [intros _|done]. exists i, (HDelete e c).
    rewrite (list_insert_lookup _ _ _ _ _ Hi). by rewrite decide_True.
  - intros H1 Hc1 H2 Hc2. repeat case_decide; simplify_eq/=; try done;
      eapply inv_crit_uniq0; eauto.
  - intros Hh. case_decide; simplify_eq/=; eauto.
  - intros Hh. case_decide.
    + destruct Hh as [Hh|Hh]; simplify_eq/=. eauto.
    + eauto.
  - rewrite elem_of_cons. intros [Hs|Hs]; [done|]. eauto.
  - rewrite ev_count_cons. specialize (inv_eclose_once0 c0).
    case_decide; [|simpl; lia]. simplify_eq/=.
    rewrite ev_count_not_in by done. lia.
  - intros Hc. destruct (decide (c0 = c)) as [->|Hne].
    + split.
      * intros j e'. rewrite !(list_insert_lookup _ _ _ _ _ Hi). case_decide; [done|].
        split; intros Hj.
        -- by pose proof (inv_crit_uniq0 _ _ _ _ Hi eq_refl Hj eq_refl).
        -- by pose proof (inv_crit_uniq0 _ _ _ _ Hi eq_refl Hj eq_refl).
      * intros e' He'. rewrite (inv_reg_inj0 _ _ _ He' Hrc). exists i.
        rewrite (list_insert_lookup _ _ _ _ _ Hi). by rewrite decide_True.
    + rewrite elem_of_cons in Hc. destruct Hc as [Hc|Hc]; [congruence|].
      destruct (inv_eclose0 c0 Hc) as [Ha Hb]. split.
      * intros j e'. rewrite !(list_insert_lookup _ _ _ _ _ Hi). case_decide; [done|].
        apply Ha.
      * intros e' He'. destruct (Hb e' He') as [j Hj]. exists j.
        rewrite (list_insert_lookup _ _ _ _ _ Hi).
        case_decide; [|done]. subst. congruence.
  - rewrite elem_of_cons. intros [Hc|Hc]; [|eauto]. simplify_eq/=. eauto.
Qed.

(** [delete(subscriptions, email)]; [Unlock]. *)
Lemma Inv_delete s i e c :
  Inv s -> handlers s !! i = Some (HDelete e c) ->
  Inv (mkS (delete e (reg s)) false (next_chan s) (closed s)
           (<[i := HDone RStopped]> (handlers s)) (watchers s) (trace s)).
Proof.
  intros I Hi. destruct I.
  destruct (inv_after_send0 i e c (or_intror Hi)) as [Hrc (wc & Hwc & Hdc)].
  assert (Hnc : forall j h, i <> j -> handlers s !! j = Some h -> crit h = false).
  { intros j h Hij Hj. destruct (crit h) eqn:Hc; [|done].
    exfalso. apply Hij. eapply inv_crit_uniq0; eauto. }
  constructor; simpl; try assumption; intros *;
    rewrite ?(list_insert_lookup _ _ _ _ _ Hi).
  - rewrite lookup_delete. case_decide; [done|]. eauto.
  - rewrite !lookup_delete. repeat case_decide; try done. eauto.
  - intros Hh. case_decide; [done|].
    destruct (inv_spawn0 _ _ _ _ Hh) as [Hr Hn]. split; [|done].
    rewrite lookup_delete_ne; [done|]. intros ->. congruence.
  - intros H1 H2. repeat case_decide; simplify_eq/=; eauto.
  - intros Hw Hl. rewrite lookup_delete_ne; [eauto|].
    intros Heq. specialize (inv_live0 _ _ Hw Hl). rewrite <- Heq in inv_live0.
    congruence.
  - split; [done|]. intros (j & h & Hh & Hc).
    rewrite (list_insert_lookup _ _ _ _ _ Hi) in Hh.
    case_decide; simplify_eq/=. specialize (Hnc _ _ H Hh). congruence.
  - intros H1 Hc1 H2 Hc2. repeat case_decide; simplify_eq/=; try done;
      eapply inv_crit_uniq0; eauto.
  - intros Hh. case_decide; [done|]. specialize (Hnc _ _ H Hh). done.
  - intros Hh. case_decide; [destruct Hh; done|].
    destruct Hh as [Hh|Hh]; specialize (Hnc _ _ H Hh); done.
  - intros Hc. destruct (inv_eclose0 c0 Hc) as [Ha Hb]. split.
    + intros j e'. rewrite !(list_insert_lookup _ _ _ _ _ Hi). case_decide; [done|].
      apply Ha.
    + intros e' He'. rewrite lookup_delete in He'. case_decide; [done|].
      destruct (Hb e' He') as [j Hj]. exists j.
      rewrite (list_insert_lookup _ _ _ _ _ Hi).
      case_decide; [|done]. subst. congruence.
  - rewrite lookup_delete. by case_decide.
Qed.

Lemma step_Inv s a s' : Inv s -> step s a = Some s' -> Inv s'.
Proof.
  intros I Hs. destruct a as [e t | e | i | c | c r | c ok | c]; simpl in Hs.
  - injection Hs as <-. apply Inv_add_handler; [done|done|done|].
    intros; repeat split; discriminate.
  - injection Hs as <-. apply Inv_add_handler; [done|done|done|].
    intros; repeat split; discriminate.
  - destruct (handlers s !! i) as [h|] eqn:Hi; [|done].
    destruct h as [e t|e t c|e|e c|e c|e c|r]; simpl in Hs.
    + destruct (String.eqb e "" || String.eqb t "") eqn:Hb.
      { injection Hs as <-. eapply Inv_handler_done; eauto. }
      apply orb_false_iff in Hb as [Hb _]. apply String.eqb_neq in Hb.
      destruct (locked s) eqn:Hl; [done|].
      destruct (reg s !! e) eqn:He; injection Hs as <-.
      * eapply Inv_handler_done; eauto.
      * by apply Inv_start_insert.
    + injection Hs as <-. by eapply Inv_spawn.
    + destruct (String.eqb e "").
      { injection Hs as <-. eapply Inv_handler_done; eauto. }
      destruct (locked s) eqn:Hl; [done|].
      destruct (reg s !! e) eqn:He; injection Hs as <-.
      * by apply Inv_stop_found.
      * eapply Inv_handler_done; eauto.
    + destruct (watchers s !! c) as [w|] eqn:Hw; [|done].
      destruct (w_pc w) eqn:Hp; try done. injection Hs as <-.
      by eapply Inv_send.
    + injection Hs as <-. by eapply Inv_close.
    + injection Hs as <-. by eapply Inv_delete.
    + done.
  - destruct (watchers s !! c) as [w|] eqn:Hw; [|done].
    destruct (w_pc w) eqn:Hp; try done. injection Hs as <-.
    apply Inv_set_watcher; [done|done|congruence|set_solver].
  - destruct (watchers s !! c) as [w|] eqn:Hw; [|done].
    destruct (w_pc w) eqn:Hp; try done. injection Hs as <-.
    apply Inv_set_watcher; [done|done|congruence|set_solver].
  - destruct (watchers s !! c) as [w|] eqn:Hw; [|done].
    destruct (w_pc w) eqn:Hp; try done. injection Hs as <-.
    apply Inv_set_watcher; [done|done|congruence|set_solver].
  - destruct (watchers s !! c) as [w|] eqn:Hw; [|done].
    destruct (w_pc w) eqn:Hp; try done.
    destruct (bool_decide (c ∈ closed s)); [|done]. injection Hs as <-.
    apply Inv_set_watcher; [done|done|congruence|set_solver].
Qed.

Lemma reachable_Inv s : reachable s -> Inv s.
Proof.
  induction 1 as [|s a s' _ IH Hs]; [apply Inv_init|]. eapply step_Inv; eauto.
Qed.

Lemma exec_reachable s acts s' : reachable s -> exec s acts = Some s' -> reachable s'.
Proof.
  revert s. induction acts as [|a acts IH]; simpl; intros s Hr He.
  - by injection He as <-.
  - destruct (step s a) as [s1|] eqn:Hs; [|done].
    apply (IH s1); [econstructor; eauto|done].
Qed.

Lemma exec_init_reachable acts s : exec init acts = Some s -> reachable s.
Proof. apply exec_reachable. constructor. Qed.

End ServerInv.

(* ------------------------------------------------------------------ *)
(** ** Per-channel traces follow the watcher loop *)

Module ServerTrace.

Import Parse Server ServerInv.

Lemma wrun_app e t p l1 l2 :
  wrun e t p (l1 ++ l2) =
  match wrun e t p l1 with Some p' => wrun e t p' l2 | None => None end.
Proof.
  revert p. induction l1 as [|ev l1 IH]; intros p; simpl; [done|].
  destruct (wmove e t p ev); [apply IH|done].
Qed.

Lemma chron_app c l1 l2 : chron c (l1 ++ l2) = chron c l2 ++ chron c l1.
Proof. unfold chron. by rewrite filter_app, rev_app_distr. Qed.

Lemma chron_single c ev :
  chron c [ev] = if decide (ev_chan ev = c) then [ev] else [].
Proof. unfold chron. rewrite filter_cons, filter_nil. by case_decide. Qed.

Lemma chron_nil c : chron c [] = [].
Proof. done. Qed.

(** One step moves watcher [c] at most along one edge of its loop, and
    the event it emits on channel [c] is that edge. *)
Lemma step_wrun s a s' c w :
  Inv s -> watchers s !! c = Some w -> step s a = Some s' ->
  exists w' new, watchers s' !! c = Some w' /\ w_email w' = w_email w /\
    w_crn w' = w_crn w /\ trace s' = new ++ trace s /\
    wrun (w_email w) (w_crn w) (w_pc w) (chron c new) = Some (w_pc w').
Proof.
  intros I Hw Hs.
  assert (Hsame : watchers s' = watchers s -> (exists ev, trace s' = [ev] ++ trace s /\
            chron c [ev] = []) \/ trace s' = [] ++ trace s \/
            (exists c', trace s' = [EClose c'] ++ trace s) ->
            exists w' new, watchers s' !! c = Some w' /\ w_email w' = w_email w /\
              w_crn w' = w_crn w /\ trace s' = new ++ trace s /\
              wrun (w_email w) (w_crn w) (w_pc w) (chron c new) = Some (w_pc w')).
  { intros Hws Htr. rewrite Hws. destruct Htr as [(ev & Ht & Hc)|[Ht|(c' & Ht)]].
    - exists w, [ev]. by rewrite Hc.
    - exists w, []. done.
    - exists w, [EClose c']. rewrite chron_single. simpl.
      destruct (decide (c' = c)); repeat split; try done; simpl; by destruct (w_pc w). }
  destruct a as [e t | e | i | c' | c' r | c' ok | c']; simpl in Hs.
  - injection Hs as <-. apply Hsame; [done|]. by right; left.
  - injection Hs as <-. apply Hsame; [done|]. by right; left.
  - destruct (handlers s !! i) as [h|] eqn:Hi; [|done].
    destruct h as [e t|e t c'|e|e c'|e c'|e c'|r]; simpl in Hs.
    + destruct (String.eqb e "" || String.eqb t "").
      { injection Hs as <-. apply Hsame; [done|]. by right; left. }
      destruct (locked s); [done|].
      destruct (reg s !! e); injection Hs as <-; (apply Hsame; [done|]; by right; left).
    + injection Hs as <-. simpl. exists w, [].
      destruct (inv_spawn _ I _ _ _ _ Hi) as [_ Hn].
      rewrite lookup_insert_ne by congruence. done.
    + destruct (String.eqb e "").
      { injection Hs as <-. apply Hsame; [done|]. by right; left. }
      destruct (locked s); [done|].
      destruct (reg s !! e); injection Hs as <-; (apply Hsame; [done|]; by right; left).
    + destruct (watchers s !! c') as [w0|] eqn:Hw0; [|done].
      destruct (w_pc w0) eqn:Hp; try done. injection Hs as <-. simpl.
      destruct (decide (c' = c)) as [->|Hne].
      * rewrite Hw in Hw0. injection Hw0 as <-.
        exists (with_pc w WDone), [ESend c]. rewrite lookup_insert_eq, chron_single.
        rewrite decide_True by done. simpl. by rewrite Hp.
      * exists w, [ESend c']. rewrite lookup_insert_ne by done.
        rewrite chron_single, decide_False by done. done.
    + injection Hs as <-. apply Hsame; [done|]. right; right. by exists c'.
    + injection Hs as <-. apply Hsame; [done|]. by right; left.
    + done.
  - destruct (watchers s !! c') as [w0|] eqn:Hw0; [|done].
    destruct (w_pc w0) eqn:Hp; try done. injection Hs as <-. simpl.
    destruct (decide (c' = c)) as [->|Hne].
    + rewrite Hw in Hw0. injection Hw0 as <-.
      exists (with_pc w WChecking), [ECheck c (w_crn w)].
      rewrite lookup_insert_eq, chron_single, decide_True by done.
      simpl. rewrite Hp. simpl. rewrite String.eqb_refl. repeat split; done.
    + exists w, [ECheck c' (w_crn w0)]. rewrite lookup_insert_ne by done.
      rewrite chron_single, decide_False by done. done.
  - destruct (watchers s !! c') as [w0|] eqn:Hw0; [|done].
    destruct (w_pc w0) eqn:Hp; try done. injection Hs as <-. simpl.
    destruct (decide (c' = c)) as [->|Hne].
    + rewrite Hw in Hw0. injection Hw0 as <-.
      eexists _, [ECheckRes c (availability r)].
      rewrite lookup_insert_eq, chron_single, decide_True by done.
      simpl. rewrite Hp. repeat split; [].
      destruct (availability r) as [n|]; [|done]. done.
    + exists w, [ECheckRes c' (availability r)]. rewrite lookup_insert_ne by done.
      rewrite chron_single, decide_False by done. done.
  - destruct (watchers s !! c') as [w0|] eqn:Hw0; [|done].
    destruct (w_pc w0) eqn:Hp; try done. injection Hs as <-. simpl.
    destruct (decide (c' = c)) as [->|Hne].
    + rewrite Hw in Hw0. injection Hw0 as <-.
      eexists _, [ENotify c (w_email w) n (w_crn w) ok].
      rewrite lookup_insert_eq, chron_single, decide_True by done.
      simpl. rewrite Hp. simpl. rewrite !String.eqb_refl, Z.eqb_refl. repeat split; done.
    + exists w, [ENotify c' (w_email w0) n (w_crn w0) ok]. rewrite lookup_insert_ne by done.
      rewrite chron_single, decide_False by done. done.
  - destruct (watchers s !! c') as [w0|] eqn:Hw0; [|done].
    destruct (w_pc w0) eqn:Hp; try done.
    destruct (bool_decide (c' ∈ closed s)); [|done]. injection Hs as <-. simpl.
    destruct (decide (c' = c)) as [->|Hne].
    + rewrite Hw in Hw0. injection Hw0 as <-.
      eexists _, [ERecvClosed c].
      rewrite lookup_insert_eq, chron_single, decide_True by done.
      simpl. rewrite Hp. repeat split; done.
    + exists w, [ERecvClosed c']. rewrite lookup_insert_ne by done.
      rewrite chron_single, decide_False by done. done.
Qed.

Lemma exec_wrun s acts s' c w :
  reachable s -> watchers s !! c = Some w -> exec s acts = Some s' ->
  exists w' new, watchers s' !! c = Some w' /\ w_email w' = w_email w /\
    w_crn w' = w_crn w /\ trace s' = new ++ trace s /\
    wrun (w_email w) (w_crn w) (w_pc w) (chron c new) = Some (w_pc w').
Proof.
  revert s w. induction acts as [|a acts IH]; simpl; intros s w Hr Hw He.
  - injection He as <-. exists w, []. done.
  - destruct (step s a) as [s1|] eqn:Hs; [|done].
    destruct (step_wrun s a s1 c w (reachable_Inv s Hr) Hw Hs)
      as (w1 & new1 & Hw1 & He1 & Hc1 & Ht1 & Hr1).
    destruct (IH s1 w1 (reach_step s a s1 Hr Hs) Hw1 He)
      as (w2 & new2 & Hw2 & He2 & Hc2 & Ht2 & Hr2).
    exists w2, (new2 ++ new1). repeat split; try congruence.
    + rewrite Ht2, Ht1. by rewrite app_assoc.
    + rewrite chron_app, wrun_app, Hr1. rewrite <- He1, <- Hc1. done.
Qed.

(** Once returned, the loop emits nothing on its channel but the Stop
    handler's [close]. *)
Lemma wrun_done e t l p :
  wrun e t WDone l = Some p -> p = WDone /\ forall ev, ev ∈ l -> exists c, ev = EClose c.
Proof.
  induction l as [|ev l IH]; simpl; intros H.
  - injection H as <-. split; [done|]. intros ev Hev. by apply elem_of_nil in Hev.
  - destruct ev; simpl in H; try done.
    destruct (IH H) as [-> Hl]. split; [done|].
    intros ev Hev. apply elem_of_cons in Hev as [->|Hev]; eauto.
Qed.

Lemma wrun_idle_no_notify e t p l p' :
  (p = WSelect \/ p = WDone) -> wrun e t p l = Some p' ->
  notifications (before_tick l) = [].
Proof.
  revert p. induction l as [|ev l IH]; simpl; intros p Hp H; [done|].
  destruct Hp as [->| ->]; destruct ev as [c0 t0|c0 r0|c0 e0 n0 t0 ok0|c0|c0|c0];
    simpl in H |- *; try done; eauto.
Qed.

Lemma wrun_notifying e t n l p' :
  wrun e t (WNotifying n) l = Some p' ->
  (exists c0 t0, ECheck c0 t0 ∈ l) ->
  notifications (before_tick l) = [(e, n, t)].
Proof.
  induction l as [|ev l IH]; simpl; intros H (c0 & t0 & Hin).
  - by apply elem_of_nil in Hin.
  - apply elem_of_cons in Hin.
    destruct ev as [c1 t1|c1 r1|c1 e1 n1 t1 ok1|c1|c1|c1]; simpl in H |- *; try done.
    + destruct (String.eqb e1 e && (n1 =? n) && String.eqb t1 t) eqn:Hb; [|done].
      apply andb_true_iff in Hb as [Hb Ht]. apply andb_true_iff in Hb as [He Hn].
      apply String.eqb_eq in He, Ht. apply Z.eqb_eq in Hn. subst.
      erewrite wrun_idle_no_notify; [done| |exact H]. by left.
    + apply IH; [done|]. destruct Hin as [Hin|Hin]; [done|]. eauto.
Qed.

Lemma elem_of_chron ev c l : ev ∈ l -> ev_chan ev = c -> ev ∈ chron c l.
Proof.
  intros Hin Hc. unfold chron. rewrite list_elem_of_In, <- in_rev, <- list_elem_of_In.
  by apply list_elem_of_filter.
Qed.

End ServerTrace.


(* ------------------------------------------------------------------ *)
(** ** What the events say about their watcher *)

Module ServerInv2.

Import Parse Server ServerInv.

Lemma ev_ok_with_pc w p ev : ev_ok (with_pc w p) ev <-> ev_ok w ev.
Proof. by destruct ev. Qed.

Lemma Inv2_init : Inv2 init.
Proof.
  split; simpl.
  - intros c w n H. by rewrite lookup_empty in H.
  - intros c H. set_solver.
  - intros ev H. by apply elem_of_nil in H.
  - intros c H. by apply elem_of_nil in H.
Qed.

Lemma Inv2_frame s s' :
  watchers s' = watchers s -> closed s' = closed s -> trace s' = trace s -> Inv2 s -> Inv2 s'.
Proof. intros Hw Hc Ht [H1 H2 H3 H4]. split; rewrite ?Hw, ?Hc, ?Ht; auto. Qed.

(** A step of the watcher on channel [c] that emits [ev]. *)
Lemma Inv2_watcher s s' c w p ev :
  Inv2 s -> watchers s !! c = Some w ->
  watchers s' = <[c := with_pc w p]> (watchers s) -> closed s' = closed s ->
  trace s' = ev :: trace s -> ev_chan ev = c -> ev_ok w ev ->
  (forall n, p = WNotifying n -> 0 < n) -> (c ∈ closed s -> p = WDone) ->
  (forall c0, ev <> ERecvClosed c0) -> Inv2 s'.
Proof.
  intros [H1 H2 H3 H4] Hw Hws Hc Ht Hev Hok Hp Hcl Hnr. split; rewrite ?Hws, ?Hc, ?Ht.
  - intros c' w' n Hw' Hn. destruct (decide (c' = c)) as [->|Hne].
    + rewrite lookup_insert_eq in Hw'. injection Hw' as <-. apply Hp. exact Hn.
    + rewrite lookup_insert_ne in Hw' by congruence. eauto.
  - intros c' Hc'. destruct (decide (c' = c)) as [->|Hne].
    + rewrite lookup_insert_eq. exists (with_pc w p). split; [done|]. by apply Hcl.
    + rewrite lookup_insert_ne by congruence. by apply H2.
  - intros ev' Hin. apply elem_of_cons in Hin as [->|Hin].
    + rewrite Hev, lookup_insert_eq. exists (with_pc w p). split; [done|]. by apply ev_ok_with_pc.
    + destruct (H3 ev' Hin) as (w' & Hw' & Hok'). destruct (decide (ev_chan ev' = c)) as [Heq|Hne].
      * rewrite Heq, lookup_insert_eq. rewrite Heq, Hw in Hw'. injection Hw' as <-.
        exists (with_pc w p). split; [done|]. by apply ev_ok_with_pc.
      * rewrite lookup_insert_ne by congruence. eauto.
  - intros c' Hin. apply elem_of_cons in Hin as [Heq|Hin]; [by apply (Hnr c')|]. by apply (H4 c').
Qed.

Lemma step_Inv2 s a s' : Inv s -> Inv2 s -> step s a = Some s' -> Inv2 s'.
Proof.
  intros HI J Hs.
  assert (Jc : forall c w, watchers s !! c = Some w -> w_pc w <> WDone -> c ∉ closed s).
  { intros c w Hw Hp Hc. destruct (inv2_closed_done _ J c Hc) as (w' & Hw' & Hd). congruence. }
  destruct a as [e t | e | i | c | c r | c ok | c]; simpl in Hs.
  - injection Hs as <-. by apply (Inv2_frame s).
  - injection Hs as <-. by apply (Inv2_frame s).
  - destruct (handlers s !! i) as [h|] eqn:Hi; [|done].
    destruct h as [e t|e t c|e|e c|e c|e c|r]; simpl in Hs.
    + destruct (String.eqb e "" || String.eqb t ""); [injection Hs as <-; by apply (Inv2_frame s)|].
      destruct (locked s); [done|].
      destruct (reg s !! e); injection Hs as <-; by apply (Inv2_frame s).
    + injection Hs as <-. pose proof (inv_spawn _ HI i e t c Hi) as [_ Hnone].
      destruct J as [J1 J2 J3 J4]. split; simpl.
      * intros c' w' n Hw' Hn. destruct (decide (c' = c)) as [->|Hne].
        -- rewrite lookup_insert_eq in Hw'. injection Hw' as <-. discriminate.
        -- rewrite lookup_insert_ne in Hw' by congruence. eauto.
      * intros c' Hc'. destruct (J2 c' Hc') as (w' & Hw' & Hd).
        destruct (decide (c' = c)) as [->|Hne]; [congruence|].
        rewrite lookup_insert_ne by congruence. eauto.
      * intros ev Hin. destruct (J3 ev Hin) as (w' & Hw' & Hok).
        destruct (decide (ev_chan ev = c)) as [Heq|Hne]; [congruence|].
        rewrite lookup_insert_ne by congruence. eauto.
      * exact J4.
    + destruct (String.eqb e ""); [injection Hs as <-; by apply (Inv2_frame s)|].
      destruct (locked s); [done|].
      destruct (reg s !! e); injection Hs as <-; by apply (Inv2_frame s).
    + destruct (watchers s !! c) as [w|] eqn:Hw; [|done].
      destruct (w_pc w) eqn:Hp; try done. injection Hs as <-.
      apply (Inv2_watcher s _ c w WDone (ESend c)); try done; intros; discriminate.
    + injection Hs as <-. destruct (inv_after_send _ HI i e c (or_introl Hi)) as (_ & w & Hw & Hd).
      destruct J as [J1 J2 J3 J4]. split; simpl.
      * exact J1.
      * intros c' Hc'. apply elem_of_union in Hc' as [Hc'|Hc'].
        -- apply elem_of_singleton in Hc' as ->. eauto.
        -- eauto.
      * intros ev Hin. apply elem_of_cons in Hin as [->|Hin]; [|eauto].
        exists w. split; [exact Hw | simpl; trivial].
      * intros c' Hin. apply elem_of_cons in Hin as [Heq|Hin]; [discriminate|]. by apply (J4 c').
    + injection Hs as <-. by apply (Inv2_frame s).
    + done.
  - destruct (watchers s !! c) as [w|] eqn:Hw; [|done].
    destruct (w_pc w) eqn:Hp; try done. injection Hs as <-.
    apply (Inv2_watcher s _ c w WChecking (ECheck c (w_crn w))); try done;
      first [ intros; discriminate
            | intros Hc; exfalso; apply (Jc c w Hw); [congruence | exact Hc] ].
  - destruct (watchers s !! c) as [w|] eqn:Hw; [|done].
    destruct (w_pc w) eqn:Hp; try done. injection Hs as <-.
    apply (Inv2_watcher s _ c w
             (match availability r with
              | None => WDone
              | Some n => if 0 <? n then WNotifying n else WSelect
              end) (ECheckRes c (availability r))); try done;
      first [ intros; discriminate
            | intros Hc; exfalso; apply (Jc c w Hw); [congruence | exact Hc]
            | intros n Hn; destruct (availability r) as [m|]; [|discriminate];
              destruct (Z.ltb_spec 0 m); [injection Hn as <-; lia | discriminate] ].
  - destruct (watchers s !! c) as [w|] eqn:Hw; [|done].
    destruct (w_pc w) eqn:Hp; try done. injection Hs as <-.
    pose proof (inv2_notif_pos _ J c w n Hw Hp) as Hn.
    apply (Inv2_watcher s _ c w WSelect (ENotify c (w_email w) n (w_crn w) ok)); try done;
      first [ intros; discriminate
            | intros Hc; exfalso; apply (Jc c w Hw); [congruence | exact Hc] ].
  - destruct (watchers s !! c) as [w|] eqn:Hw; [|done].
    destruct (w_pc w) eqn:Hp; try done.
    destruct (bool_decide (c ∈ closed s)) eqn:Hb; [|done].
    apply bool_decide_eq_true in Hb. exfalso. apply (Jc c w Hw); [congruence | exact Hb].
Qed.

Lemma reachable_Inv2 s : reachable s -> Inv2 s.
Proof.
  induction 1 as [|s a s' Hr IH Hs]; [apply Inv2_init|].
  eapply step_Inv2; [apply reachable_Inv | |]; eauto.
Qed.

End ServerInv2.

(* ------------------------------------------------------------------ *)
(** ** A key whose watcher returned on its own stays registered *)

Module ServerZombie.

Import Parse Server ServerInv.

Lemma zombie_set_watcher s e c c' w' evs :
  zombie s e c -> c' <> c -> zombie (set_watcher s c' w' evs) e c.
Proof.
  intros (Hne & Hreg & (wc & Hwc & Hdc) & Hnh) Hc. unfold zombie, set_watcher; simpl.
  do 3 (split; [try done|]); [|done]. exists wc. by rewrite lookup_insert_ne.
Qed.

(** The handler at [i] keeps its program point when another goroutine
    steps. *)
Ltac send_stays :=
  simpl;
  match goal with
  | Hi : ?l !! ?i = Some _ |- (?l ++ [_]) !! ?i = _ =>
      rewrite list_snoc_lookup, decide_False; [done|];
      intros ->; by rewrite lookup_ge_None_2 in Hi by lia
  | Hj : ?l !! ?j = Some _ |- <[?j := _]> ?l !! ?i = _ =>
      rewrite (list_insert_lookup _ _ _ _ _ Hj); case_decide; [congruence|done]
  | _ => done
  end.

Lemma zombie_step s a s' e c :
  Inv s -> zombie s e c -> step s a = Some s' ->
  zombie s' e c /\
  (forall i, handlers s !! i = Some (HStop e) \/ handlers s !! i = Some (HSend e c) ->
     handlers s' !! i = Some (HStop e) \/ handlers s' !! i = Some (HSend e c)) /\
  (forall i, handlers s !! i = Some (HSend e c) ->
     handlers s' !! i = Some (HSend e c) /\ locked s' = true /\
     forall j e' t, e' <> "" -> t <> "" -> handlers s !! j = Some (HStart e' t) ->
       handlers s' !! j = Some (HStart e' t)).
Proof.
  intros I Hz Hs. pose proof Hz as (Hne & Hreg & (wc & Hwc & Hdc) & Hnh).
  assert (Hlk : forall i, handlers s !! i = Some (HSend e c) -> locked s = true).
  { intros i Hi. apply (inv_lock _ I). by exists i, (HSend e c). }
  destruct a as [e1 t1 | e1 | j | c' | c' r | c' ok | c']; simpl in Hs.
  - (* a Start request arrives *)
    injection Hs as <-. unfold add_handler, zombie; simpl.
    split; [repeat split; eauto; rewrite !list_snoc_lookup; case_decide;
            try done; apply Hnh|split].
    + intros i Hi. rewrite !list_snoc_lookup. rewrite decide_False; [done|].
      intros ->. destruct Hi as [Hi|Hi]; by rewrite lookup_ge_None_2 in Hi by lia.
    + intros i Hi. split; [send_stays|]. split; [eauto|]. intros j e' t _ _ Hj. rewrite list_snoc_lookup.
      rewrite decide_False; [done|]. intros ->. by rewrite lookup_ge_None_2 in Hj by lia.
  - (* a Stop request arrives *)
    injection Hs as <-. unfold add_handler, zombie; simpl.
    split; [repeat split; eauto; rewrite !list_snoc_lookup; case_decide;
            try done; apply Hnh|split].
    + intros i Hi. rewrite !list_snoc_lookup. rewrite decide_False; [done|].
      intros ->. destruct Hi as [Hi|Hi]; by rewrite lookup_ge_None_2 in Hi by lia.
    + intros i Hi. split; [send_stays|]. split; [eauto|]. intros j e' t _ _ Hj. rewrite list_snoc_lookup.
      rewrite decide_False; [done|]. intros ->. by rewrite lookup_ge_None_2 in Hj by lia.
  - destruct (handlers s !! j) as [h|] eqn:Hj; [|done].
    destruct h as [e1 t1|e1 t1 c1|e1|e1 c1|e1 c1|e1 c1|r]; simpl in Hs.
    + (* HStart *)
      assert (Hni : forall i, handlers s !! i = Some (HStop e) \/
                handlers s !! i = Some (HSend e c) -> j <> i).
      { intros i [Hi|Hi] ->; congruence. }
      assert (Hgen : forall s1, handlers s1 = <[j := HDone RAlreadyActive]> (handlers s) \/
                handlers s1 = <[j := HDone RBadRequest]> (handlers s) \/
                handlers s1 = <[j := HSpawn e1 t1 (next_chan s)]> (handlers s) ->
                forall i, handlers s !! i = Some (HStop e) \/ handlers s !! i = Some (HSend e c) ->
                handlers s1 !! i = Some (HStop e) \/ handlers s1 !! i = Some (HSend e c)).
      { intros s1 Hh1 i Hi. specialize (Hni i Hi).
        destruct Hh1 as [Hh1|[Hh1|Hh1]]; rewrite Hh1, list_lookup_insert_ne; done. }
      destruct (String.eqb e1 "" || String.eqb t1 "") eqn:Hb.
      { injection Hs as <-. split; [|split].
        - unfold zombie, set_handler; simpl. repeat split; eauto;
            rewrite (list_insert_lookup _ _ _ _ _ Hj); case_decide; try done; apply Hnh.
        - apply Hgen. simpl. by right; left.
        - intros i Hi. split; [send_stays|]. split; [eauto|]. intros j' e' t Hne' Ht' Hj'.
          simpl. rewrite (list_insert_lookup _ _ _ _ _ Hj). case_decide; [|done].
          subst. rewrite Hj in Hj'. injection Hj' as -> ->.
          apply String.eqb_neq in Hne', Ht'. by rewrite Hne', Ht' in Hb. }
      destruct (locked s) eqn:Hl; [done|].
      assert (Hnos : forall i, handlers s !! i <> Some (HSend e c)).
      { intros i Hi. specialize (Hlk i Hi). congruence. }
      destruct (reg s !! e1) eqn:He1; injection Hs as <-.
      * split; [|split].
        -- unfold zombie, set_handler; simpl. repeat split; eauto;
             rewrite (list_insert_lookup _ _ _ _ _ Hj); case_decide; try done; apply Hnh.
        -- apply Hgen. simpl. by left.
        -- intros i Hi. by destruct (Hnos i).
      * split; [|split].
        -- unfold zombie; simpl. repeat split; eauto.
           ++ rewrite lookup_insert_ne; [done|congruence].
           ++ rewrite (list_insert_lookup _ _ _ _ _ Hj). case_decide; [done|]. apply Hnh.
           ++ rewrite (list_insert_lookup _ _ _ _ _ Hj). case_decide; [done|]. apply Hnh.
        -- apply Hgen. simpl. by right; right.
        -- intros i Hi. by destruct (Hnos i).
    + (* HSpawn *)
      injection Hs as <-. destruct (inv_spawn _ I _ _ _ _ Hj) as [_ Hn].
      assert (c1 <> c) by congruence.
      split; [|split].
      * unfold zombie; simpl. repeat split; eauto.
        -- exists wc. rewrite lookup_insert_ne; done.
        -- rewrite (list_insert_lookup _ _ _ _ _ Hj). case_decide; [done|]. apply Hnh.
        -- rewrite (list_insert_lookup _ _ _ _ _ Hj). case_decide; [done|]. apply Hnh.
      * intros i Hi. simpl. rewrite (list_insert_lookup _ _ _ _ _ Hj).
        case_decide; [subst; destruct Hi; congruence|done].
      * intros i Hi. split; [send_stays|]. split; [simpl; eauto|]. intros j' e' t _ _ Hj'. simpl.
        rewrite (list_insert_lookup _ _ _ _ _ Hj). case_decide; [congruence|done].
    + (* HStop *)
      destruct (String.eqb e1 "") eqn:Hb.
      { injection Hs as <-. apply String.eqb_eq in Hb. subst e1. split; [|split].
        - unfold zombie, set_handler; simpl. repeat split; eauto;
            rewrite (list_insert_lookup _ _ _ _ _ Hj); case_decide; try done; apply Hnh.
        - intros i Hi. simpl. rewrite (list_insert_lookup _ _ _ _ _ Hj).
          case_decide; [subst; destruct Hi; congruence|done].
        - intros i Hi. split; [send_stays|]. split; [eauto|]. intros j' e' t _ _ Hj'. simpl.
          rewrite (list_insert_lookup _ _ _ _ _ Hj). case_decide; [congruence|done]. }
      destruct (locked s) eqn:Hl; [done|].
      assert (Hnos : forall i, handlers s !! i <> Some (HSend e c)).
      { intros i Hi. specialize (Hlk i Hi). congruence. }
      destruct (reg s !! e1) as [c1|] eqn:He1; injection Hs as <-.
      * split; [|split].
        -- unfold zombie; simpl. repeat split; eauto;
             rewrite (list_insert_lookup _ _ _ _ _ Hj); case_decide; try done; apply Hnh.
        -- intros i Hi. simpl. rewrite (list_insert_lookup _ _ _ _ _ Hj).
           case_decide as Hji; [|done]. subst i. right.
           destruct Hi as [Hi|Hi]; [|by destruct (Hnos j)].
           rewrite Hj in Hi. injection Hi as ->. congruence.
        -- intros i Hi. by destruct (Hnos i).
      * split; [|split].
        -- unfold zombie, set_handler; simpl. repeat split; eauto;
             rewrite (list_insert_lookup _ _ _ _ _ Hj); case_decide; try done; apply Hnh.
        -- intros i Hi. simpl. rewrite (list_insert_lookup _ _ _ _ _ Hj).
           case_decide as Hji; [|done]. subst i.
           destruct Hi as [Hi|Hi]; [|by destruct (Hnos j)].
           rewrite Hj in Hi. injection Hi as ->. congruence.
        -- intros i Hi. by destruct (Hnos i).
    + (* HSend *)
      destruct (watchers s !! c1) as [w1|] eqn:Hw1; [|done].
      destruct (w_pc w1) eqn:Hp; try done. injection Hs as <-.
      assert (c1 <> c) by congruence.
      split; [|split].
      * unfold zombie; simpl. repeat split; eauto.
        -- exists wc. rewrite lookup_insert_ne; done.
        -- rewrite (list_insert_lookup _ _ _ _ _ Hj). case_decide; [congruence|]. apply Hnh.
        -- rewrite (list_insert_lookup _ _ _ _ _ Hj). case_decide; [done|]. apply Hnh.
      * intros i Hi. simpl. rewrite (list_insert_lookup _ _ _ _ _ Hj).
        case_decide; [subst; destruct Hi; congruence|done].
      * intros i Hi. split; [send_stays|]. split; [simpl; eauto|]. intros j' e' t _ _ Hj'. simpl.
        rewrite (list_insert_lookup _ _ _ _ _ Hj). case_decide; [congruence|done].
    + (* HClose *)
      injection Hs as <-.
      assert (c1 <> c) by (intros ->; by destruct (Hnh j e1)).
      split; [|split].
      * unfold zombie; simpl. repeat split; eauto.
        -- rewrite (list_insert_lookup _ _ _ _ _ Hj). case_decide; [done|]. apply Hnh.
        -- rewrite (list_insert_lookup _ _ _ _ _ Hj). case_decide; [congruence|]. apply Hnh.
      * intros i Hi. simpl. rewrite (list_insert_lookup _ _ _ _ _ Hj).
        case_decide; [subst; destruct Hi; congruence|done].
      * intros i Hi. split; [send_stays|]. split; [simpl; eauto|]. intros j' e' t _ _ Hj'. simpl.
        rewrite (list_insert_lookup _ _ _ _ _ Hj). case_decide; [congruence|done].
    + (* HDelete *)
      injection Hs as <-.
      assert (Hnos : forall i, handlers s !! i <> Some (HSend e c)).
      { intros i Hi. assert (i = j) as ->
          by (eapply (inv_crit_uniq _ I); eauto). congruence. }
      assert (e1 <> e).
      { intros ->. destruct (inv_after_send _ I j e c1 (or_intror Hj)) as [Hr1 _].
        rewrite Hreg in Hr1. injection Hr1 as <-. by destruct (Hnh j e). }
      split; [|split].
      * unfold zombie; simpl. repeat split; eauto.
        -- rewrite lookup_delete_ne; done.
        -- rewrite (list_insert_lookup _ _ _ _ _ Hj). case_decide; [done|]. apply Hnh.
        -- rewrite (list_insert_lookup _ _ _ _ _ Hj). case_decide; [done|]. apply Hnh.
      * intros i Hi. simpl. rewrite (list_insert_lookup _ _ _ _ _ Hj).
        case_decide; [subst; destruct Hi; congruence|done].
      * intros i Hi. by destruct (Hnos i).
    + done.
  - (* watcher c' moves: it has not returned, so it is not watcher c *)
    destruct (watchers s !! c') as [w0|] eqn:Hw0; [|done].
    destruct (w_pc w0) eqn:Hp; try done; injection Hs as <-;
    (assert (c' <> c) by congruence;
     split; [apply zombie_set_watcher; [exact Hz|done]|split; [done|]];
     intros i Hi; split; [send_stays|]; split; [simpl; eauto|done]).
  - destruct (watchers s !! c') as [w0|] eqn:Hw0; [|done].
    destruct (w_pc w0) eqn:Hp; try done; injection Hs as <-;
    (assert (c' <> c) by congruence;
     split; [apply zombie_set_watcher; [exact Hz|done]|split; [done|]];
     intros i Hi; split; [send_stays|]; split; [simpl; eauto|done]).
  - destruct (watchers s !! c') as [w0|] eqn:Hw0; [|done].
    destruct (w_pc w0) eqn:Hp; try done; injection Hs as <-;
    (assert (c' <> c) by congruence;
     split; [apply zombie_set_watcher; [exact Hz|done]|split; [done|]];
     intros i Hi; split; [send_stays|]; split; [simpl; eauto|done]).
  - destruct (watchers s !! c') as [w0|] eqn:Hw0; [|done].
    destruct (w_pc w0) eqn:Hp; try done.
    destruct (bool_decide (c' ∈ closed s)); [|done]. injection Hs as <-.
    assert (c' <> c) by congruence.
    split; [apply zombie_set_watcher; [exact Hz|done]|split; [done|]].
    intros i Hi. split; [send_stays|]. split; [simpl; eauto|done].
Qed.

Lemma zombie_exec s acts s' e c :
  reachable s -> zombie s e c -> exec s acts = Some s' ->
  zombie s' e c /\
  (forall i, handlers s !! i = Some (HStop e) \/ handlers s !! i = Some (HSend e c) ->
     handlers s' !! i = Some (HStop e) \/ handlers s' !! i = Some (HSend e c)) /\
  (forall i, handlers s !! i = Some (HSend e c) ->
     handlers s' !! i = Some (HSend e c) /\ locked s' = true /\
     forall j e' t, e' <> "" -> t <> "" -> handlers s !! j = Some (HStart e' t) ->
       handlers s' !! j = Some (HStart e' t)).
Proof.
  revert s. induction acts as [|a acts IH]; simpl; intros s Hr Hz He.
  - injection He as <-. split; [done|split; [done|]]. intros i Hi.
    split; [done|split; [|done]]. apply (inv_lock _ (reachable_Inv _ Hr)). eauto.
  - destruct (step s a) as [s1|] eqn:Hs; [|done].
    destruct (zombie_step s a s1 e c (reachable_Inv _ Hr) Hz Hs) as (Hz1 & Hh1 & Hl1).
    destruct (IH s1 (reach_step _ _ _ Hr Hs) Hz1 He) as (Hz2 & Hh2 & Hl2).
    split; [done|split].
    + intros i Hi. by apply Hh2, Hh1.
    + intros i Hi. destruct (Hl1 i Hi) as (Hi1 & _ & Hst1).
      destruct (Hl2 i Hi1) as (Hi2 & Hlk2 & Hst2). split; [done|split; [done|]].
      intros j e' t Hne Ht Hj. by apply Hst2, Hst1.
Qed.

End ServerZombie.


(** * Facts about the parser *)

Module ParseFacts.
Import Parse.

Lemma strip_prefix_app p s : strip_prefix p (p ++ s) = Some s.
Proof.
  induction p as [|a p IH]; simpl; [done|].
  destruct (ascii_dec a a); [exact IH | contradiction].
Qed.

Lemma strip_prefix_some p s r : strip_prefix p s = Some r -> s = p ++ r.
Proof.
  revert s; induction p as [|a p IH]; intros s H; simpl in *.
  - by injection H as ->.
  - destruct s as [|b s]; [discriminate|].
    destruct (ascii_dec a b) as [->|]; [|discriminate].
    by rewrite (IH s H).
Qed.

Lemma digits_span_spec s :
  s = (digits_span s).1 ++ (digits_span s).2 /\
  Forall (fun a => is_digit a = true) (digits_span s).1 /\
  (forall a r, (digits_span s).2 = a :: r -> is_digit a = false).
Proof.
  induction s as [|a s IH]; simpl.
  - split; [done|]. split; [constructor|]. by intros.
  - destruct (is_digit a) eqn:Ha.
    + destruct (digits_span s) as [ds r]; simpl in *.
      destruct IH as (IH1 & IH2 & IH3).
      split; [by rewrite <- IH1|]. split; [by constructor|]. exact IH3.
    + simpl. split; [done|]. split; [constructor|].
      intros b r Hb. by injection Hb as -> _.
Qed.

Lemma digits_span_app ds r :
  Forall (fun a => is_digit a = true) ds ->
  (forall a r', r = a :: r' -> is_digit a = false) ->
  digits_span (ds ++ r) = (ds, r).
Proof.
  intros Hds Hr. induction Hds as [|d ds Hd Hds IH]; simpl.
  - destruct r as [|a r']; [done|]. simpl. by rewrite (Hr a r' eq_refl).
  - by rewrite Hd, IH.
Qed.

Lemma suffix_not_digit post a r' : pat_suffix ++ post = a :: r' -> is_digit a = false.
Proof. simpl. intros H. by injection H as <- _. Qed.

Lemma minus_not_digit : is_digit "-"%char = false.
Proof. reflexivity. Qed.

(** [match_at] is exactly the regex anchored at the front. *)
Lemma match_at_spec s g :
  match_at s = Some g <->
  exists post, s = pat_prefix ++ g ++ pat_suffix ++ post /\ group_ok g.
Proof.
  split.
  - unfold match_at. destruct (strip_prefix pat_prefix s) as [s1|] eqn:Hp; [|discriminate].
    apply strip_prefix_some in Hp as ->.
    intros H.
    assert (Hsign : exists sign s2,
      (match s1 with
       | a :: t => if Ascii.eqb a "-"%char then ([a], t) else ([], s1)
       | [] => ([], [])
       end) = (sign, s2) /\ s1 = sign ++ s2 /\ (sign = [] \/ sign = ["-"%char])).
    { destruct s1 as [|a t]; [by exists [], []; auto|].
      destruct (Ascii.eqb a "-"%char) eqn:Ea.
      - apply Ascii.eqb_eq in Ea as ->. exists ["-"%char], t. auto.
      - exists [], (a :: t). auto. }
    destruct Hsign as (sign & s2 & Heq & -> & Hsg). rewrite Heq in H.
    pose proof (digits_span_spec s2) as (E1 & E2 & _).
    destruct (digits_span s2) as [ds s3]; simpl in E1, E2.
    destruct ds as [|d ds']; [discriminate|].
    destruct (strip_prefix pat_suffix s3) as [post|] eqn:Hs; [|discriminate].
    apply strip_prefix_some in Hs. injection H as <-.
    exists post. split.
    + rewrite E1, Hs. by rewrite <- !app_assoc.
    + exists (d :: ds'). split; [|split; [done|exact E2]].
      destruct Hsg as [-> | ->]; [left | right]; done.
  - intros (post & -> & ds & Hg & Hne & Hd).
    unfold match_at. rewrite strip_prefix_app.
    destruct ds as [|d ds']; [done|].
    assert (Hd0 : is_digit d = true) by (by inversion Hd).
    assert (Hdm : Ascii.eqb d "-"%char = false).
    { apply Ascii.eqb_neq. intros ->. by rewrite minus_not_digit in Hd0. }
    pose proof (digits_span_app (d :: ds') (pat_suffix ++ post) Hd (suffix_not_digit post))
      as Hsp.
    cbn [app] in Hsp.
    destruct Hg as [-> | ->]; cbn -[digits_span strip_prefix pat_suffix].
    + rewrite Hdm. cbn -[digits_span strip_prefix pat_suffix].
      rewrite Hsp. cbn -[strip_prefix pat_suffix]. by rewrite strip_prefix_app.
    + rewrite Hsp. cbn -[strip_prefix pat_suffix]. by rewrite strip_prefix_app.
Qed.

Lemma match_at_nil : match_at [] = None.
Proof. reflexivity. Qed.

(** The search fails exactly when no position starts a match. *)
Lemma find_submatch_none s : find_submatch s = None <-> ~ regex_in s.
Proof.
  induction s as [|a s IH].
  - split; [|done]. intros _ (pre & g & post & Hs & _).
    destruct pre; simpl in Hs; [|discriminate].
    unfold pat_prefix in Hs; simpl in Hs; discriminate.
  - simpl. destruct (match_at (a :: s)) as [g|] eqn:Hm.
    + split; [discriminate|]. intros Hn. exfalso. apply Hn.
      apply match_at_spec in Hm as (post & Hs & Hg).
      exists [], g, post. by rewrite Hs.
    + rewrite IH. split.
      * intros Hn (pre & g & post & Hs & Hg).
        destruct pre as [|b pre].
        -- simpl in Hs. assert (match_at (a :: s) = Some g) as Hm'
             by (apply match_at_spec; exists post; by rewrite Hs). congruence.
        -- simpl in Hs. injection Hs as -> Hs. apply Hn. exists pre, g, post. done.
      * intros Hn (pre & g & post & Hs & Hg). apply Hn.
        exists (a :: pre), g, post. by rewrite Hs.
Qed.

(** A found group is the leftmost match. *)
Lemma find_submatch_some s g :
  find_submatch s = Some g ->
  exists pre post, s = pre ++ pat_prefix ++ g ++ pat_suffix ++ post /\ group_ok g /\
    forall pre' rest, s = pre' ++ rest -> (length pre' < length pre)%nat -> match_at rest = None.
Proof.
  revert g; induction s as [|a s IH]; intros g H; simpl in H.
  - discriminate.
  - destruct (match_at (a :: s)) as [g'|] eqn:Hm.
    + injection H as <-. apply match_at_spec in Hm as (post & Hs & Hg).
      exists [], post. split; [done|]. split; [done|]. simpl; intros; lia.
    + destruct (IH g H) as (pre & post & Hs & Hg & Hleft).
      exists (a :: pre), post. split; [by rewrite Hs|]. split; [done|].
      intros pre' rest Hsp Hlen. destruct pre' as [|b pre'].
      * simpl in Hsp. by rewrite <- Hsp.
      * simpl in Hsp, Hlen. injection Hsp as _ Hsp.
        apply (Hleft pre' rest Hsp). lia.
Qed.

(** ** Atoi *)

Lemma is_digit_val a : is_digit a = true -> 0 <= digit_val a <= 9.
Proof.
  unfold is_digit, digit_val. intros H.
  apply andb_true_iff in H as [H1 H2]. apply Nat.leb_le in H1, H2. lia.
Qed.

Lemma digits_value_bound ds : forall acc v,
  0 <= acc -> digits_value acc ds = Some v ->
  0 <= v < (acc + 1) * 10 ^ Z.of_nat (length ds).
Proof.
  induction ds as [|d ds IH]; intros acc v Hacc H; simpl in H.
  - injection H as <-. simpl. lia.
  - destruct (is_digit d) eqn:Hd; [|discriminate].
    pose proof (is_digit_val d Hd).
    assert (0 <= acc * 10 + digit_val d) as Ha by lia.
    destruct (IH _ _ Ha H) as [H1 H2]. split; [lia|].
    rewrite length_cons, Nat2Z.inj_succ, Z.pow_succ_r by lia.
    assert (0 < 10 ^ Z.of_nat (length ds)) by (apply Z.pow_pos_nonneg; lia).
    nia.
Qed.

Lemma digits_value_all ds : forall acc,
  Forall (fun a => is_digit a = true) ds -> exists v, digits_value acc ds = Some v.
Proof.
  induction ds as [|d ds IH]; intros acc H; simpl; [eauto|].
  inversion H as [|? ? Hd Hds]; subst. rewrite Hd. apply IH, Hds.
Qed.

Lemma signed_value_bound g v :
  signed_value g = Some v -> Z.abs v < 10 ^ Z.of_nat (length g).
Proof.
  unfold signed_value. intros H.
  assert (Hpos : forall ds w, digits_value 0 ds = Some w ->
            0 <= w < 10 ^ Z.of_nat (length ds)).
  { intros ds w Hw. pose proof (digits_value_bound ds 0 w ltac:(lia) Hw). lia. }
  assert (Hmono : forall n, 0 <= 10 ^ Z.of_nat n <= 10 ^ Z.of_nat (S n)).
  { intros n. rewrite Nat2Z.inj_succ, Z.pow_succ_r by lia.
    assert (0 < 10 ^ Z.of_nat n) by (apply Z.pow_pos_nonneg; lia). lia. }
  destruct g as [|a t]; [discriminate|].
  destruct (Ascii.eqb a "-"%char); [|destruct (Ascii.eqb a "+"%char)].
  - destruct t as [|b t']; [discriminate|].
    destruct (digits_value 0 (b :: t')) as [w|] eqn:Hw; [|discriminate].
    injection H as <-. pose proof (Hpos _ _ Hw). pose proof (Hmono (length (b :: t'))).
    simpl length in *. lia.
  - destruct t as [|b t']; [discriminate|].
    destruct (digits_value 0 (b :: t')) as [w|] eqn:Hw; [|discriminate].
    injection H as <-. pose proof (Hpos _ _ Hw). pose proof (Hmono (length (b :: t'))).
    simpl length in *. lia.
  - destruct (digits_value 0 (a :: t)) as [w|] eqn:Hw; [|discriminate].
    injection H as <-. pose proof (Hpos _ _ Hw). lia.
Qed.

(** A captured group always denotes an integer. *)
Lemma group_value g : group_ok g -> exists v, signed_value g = Some v.
Proof.
  intros (ds & Hg & Hne & Hd).
  destruct ds as [|d ds']; [done|].
  assert (Hd0 : is_digit d = true) by (by inversion Hd).
  destruct (digits_value_all (d :: ds') 0 Hd) as [w Hw].
  destruct Hg as [-> | ->]; unfold signed_value.
  - assert (Ascii.eqb d "-"%char = false) as E1.
    { apply Ascii.eqb_neq. intros ->. discriminate. }
    assert (Ascii.eqb d "+"%char = false) as E2.
    { apply Ascii.eqb_neq. intros ->. discriminate. }
    rewrite E1, E2, Hw. eauto.
  - simpl (Ascii.eqb "-"%char "-"%char). cbv iota. rewrite Hw. eauto.
Qed.

Lemma atoi_value g v :
  signed_value g = Some v ->
  (atoi g = Ok v /\ in_int v = true) \/ (is_err (atoi g) = true /\ in_int v = false).
Proof.
  intros Hv. unfold atoi. rewrite Hv.
  destruct (in_int v) eqn:Hi.
  - left. destruct ((0 <? length g)%nat && (length g <? 19)%nat); auto.
  - right. destruct ((0 <? length g)%nat && (length g <? 19)%nat) eqn:Hl; [|auto].
    exfalso. apply andb_true_iff in Hl as [_ Hl]. apply Nat.ltb_lt in Hl.
    pose proof (signed_value_bound g v Hv).
    assert (10 ^ Z.of_nat (length g) <= 10 ^ 18).
    { apply Z.pow_le_mono_r; lia. }
    unfold in_int, int_min, int_max in Hi.
    apply andb_false_iff in Hi as [Hi|Hi]; apply Z.leb_gt in Hi; lia.
Qed.

End ParseFacts.

(* ------------------------------------------------------------------ *)
(** ** Facts about the posted form *)

Module FormFacts.

Import Form.

Lemma escape_byte_unescape c r :
  query_unescape (escape_byte c ++ r) = option_map (cons c) (query_unescape r).
Proof. destruct c as [[] [] [] [] [] [] [] []]; reflexivity. Qed.

Lemma escape_byte_safe c a :
  a ∈ escape_byte c -> should_escape a = false \/ a = "+"%char \/ a = "%"%char.
Proof.
  intros H. apply list_elem_of_In in H.
  destruct c as [[] [] [] [] [] [] [] []]; vm_compute in H;
    repeat (destruct H as [<-|H]; [vm_compute; auto|]); contradiction.
Qed.

Lemma query_unescape_escape s : query_unescape (query_escape s) = Some s.
Proof.
  induction s as [|c s IH]; [reflexivity|].
  unfold query_escape. simpl. rewrite escape_byte_unescape. fold (query_escape s). by rewrite IH.
Qed.

Lemma query_escape_safe s a :
  a ∈ query_escape s -> should_escape a = false \/ a = "+"%char \/ a = "%"%char.
Proof.
  induction s as [|c s IH]; simpl; [intros H; by apply list_elem_of_In in H|].
  unfold query_escape; simpl. rewrite elem_of_app. intros [H|H].
  - by apply (escape_byte_safe c).
  - by apply IH.
Qed.

Lemma cut_app sep a b :
  (forall x, x ∈ a -> Ascii.eqb x sep = false) -> cut sep (a ++ sep :: b) = (a, b, true).
Proof.
  induction a as [|x a IH]; intros H; simpl.
  - by rewrite Ascii.eqb_refl.
  - rewrite (H x) by (apply list_elem_of_In; left; done).
    rewrite IH; [done|]. intros y Hy. apply H. apply list_elem_of_In. right. by apply list_elem_of_In.
Qed.

Lemma request_body_eq crn :
  request_body crn =
  list_ascii_of_string "courseReferenceNumber=" ++ query_escape (list_ascii_of_string crn) ++
  list_ascii_of_string "&term=202430".
Proof. reflexivity. Qed.

Lemma escape_no_sep s x :
  x ∈ query_escape s -> Ascii.eqb x "&"%char = false /\ Ascii.eqb x ";"%char = false /\
                         Ascii.eqb x "="%char = false.
Proof.
  intros H. destruct (query_escape_safe s x H) as [Hs|[->| ->]]; [|done|done].
  split; [|split]; apply Ascii.eqb_neq; intros ->; discriminate.
Qed.

Lemma char_in_false c l : (forall x, x ∈ l -> Ascii.eqb x c = false) -> char_in c l = false.
Proof.
  intros H. unfold char_in. apply not_true_iff_false. rewrite existsb_exists.
  intros (x & Hx & He). apply Ascii.eqb_eq in He. subst x.
  apply list_elem_of_In in Hx. pose proof (H c Hx) as Hc.
  rewrite Ascii.eqb_refl in Hc. discriminate.
Qed.

Lemma parse_loop_cons f m ok x q :
  parse_loop (S f) m ok (x :: q) =
  let '(key, rest, _) := cut "&"%char (x :: q) in
  if char_in ";"%char key then parse_loop f m false rest
  else
    match key with
    | [] => parse_loop f m ok rest
    | _ =>
        let '(k, v, _) := cut "="%char key in
        match query_unescape k with
        | None => parse_loop f m false rest
        | Some k' =>
            match query_unescape v with
            | None => parse_loop f m false rest
            | Some v' => parse_loop f (values_add k' v' m) ok rest
            end
        end
    end.
Proof. reflexivity. Qed.

Lemma cut_none sep a :
  (forall x, x ∈ a -> Ascii.eqb x sep = false) -> cut sep a = (a, [], false).
Proof.
  induction a as [|x a IH]; intros H; simpl; [done|].
  rewrite (H x) by (apply list_elem_of_In; left; done).
  rewrite IH; [done|]. intros y Hy. apply H. apply list_elem_of_In. right. by apply list_elem_of_In.
Qed.

Lemma parse_loop_nil f m ok : parse_loop f m ok [] = (m, ok).
Proof. by destruct f. Qed.

(** No separator of the query syntax in [l]. *)
Abbreviation no_seps l :=
  (forall c, c ∈ l -> Ascii.eqb c "&"%char = false /\ Ascii.eqb c ";"%char = false /\
                      Ascii.eqb c "="%char = false).

Lemma pair_facts c0 k0 x :
  no_seps (c0 :: k0) -> no_seps x ->
  (forall c, c ∈ c0 :: k0 ++ "="%char :: x -> Ascii.eqb c "&"%char = false) /\
  char_in ";"%char (c0 :: k0 ++ "="%char :: x) = false /\
  cut "="%char (c0 :: k0 ++ "="%char :: x) = (c0 :: k0, x, true).
Proof.
  intros Hnk Hnx.
  assert (Hpair : forall c, c ∈ c0 :: k0 ++ "="%char :: x ->
                  Ascii.eqb c "&"%char = false /\ Ascii.eqb c ";"%char = false).
  { intros c Hc. rewrite elem_of_cons, elem_of_app, elem_of_cons in Hc.
    destruct Hc as [->|[Hc|[->|Hc]]].
    - destruct (Hnk c0) as (?&?&?); [set_solver|]. auto.
    - destruct (Hnk c) as (?&?&?); [set_solver|]. auto.
    - split; reflexivity.
    - destruct (Hnx c Hc) as (?&?&?). auto. }
  split; [|split].
  - intros c Hc. apply Hpair, Hc.
  - apply char_in_false. intros c Hc. apply Hpair, Hc.
  - apply (cut_app "="%char (c0 :: k0)). intros c Hc. by destruct (Hnk c Hc) as (?&?&?).
Qed.

(** A [key=value] pair followed by [&]. *)
Lemma parse_loop_pair f m ok k x rest k' x' :
  k <> [] -> no_seps k -> no_seps x ->
  query_unescape k = Some k' -> query_unescape x = Some x' ->
  parse_loop (S f) m ok ((k ++ "="%char :: x) ++ "&"%char :: rest)
  = parse_loop f (values_add k' x' m) ok rest.
Proof.
  intros Hk Hnk Hnx Hk' Hx'.
  destruct k as [|c0 k0]; [done|].
  destruct (pair_facts c0 k0 x Hnk Hnx) as (Hamp & Hsemi & Heq).
  assert (Hc : cut "&"%char (c0 :: (k0 ++ "="%char :: x) ++ "&"%char :: rest)
               = (c0 :: k0 ++ "="%char :: x, rest, true))
    by (apply (cut_app "&"%char (c0 :: k0 ++ "="%char :: x)); exact Hamp).
  change (((c0 :: k0) ++ "="%char :: x) ++ "&"%char :: rest)
    with (c0 :: (k0 ++ "="%char :: x) ++ "&"%char :: rest).
  rewrite parse_loop_cons, Hc. cbv beta iota. rewrite Hsemi. cbv iota.
  rewrite Heq. cbv beta iota. rewrite Hk', Hx'. reflexivity.
Qed.

(** The last [key=value] pair of a query. *)
Lemma parse_loop_last f m ok k x k' x' :
  k <> [] -> no_seps k -> no_seps x ->
  query_unescape k = Some k' -> query_unescape x = Some x' ->
  parse_loop (S f) m ok (k ++ "="%char :: x) = (values_add k' x' m, ok).
Proof.
  intros Hk Hnk Hnx Hk' Hx'.
  destruct k as [|c0 k0]; [done|].
  destruct (pair_facts c0 k0 x Hnk Hnx) as (Hamp & Hsemi & Heq).
  assert (Hc : cut "&"%char (c0 :: k0 ++ "="%char :: x) = (c0 :: k0 ++ "="%char :: x, [], false))
    by (apply cut_none; exact Hamp).
  change ((c0 :: k0) ++ "="%char :: x) with (c0 :: k0 ++ "="%char :: x).
  rewrite parse_loop_cons, Hc. cbv beta iota. rewrite Hsemi. cbv iota.
  rewrite Heq. cbv beta iota. rewrite Hk', Hx'. apply parse_loop_nil.
Qed.

End FormFacts.

(* ------------------------------------------------------------------ *)
(** ** Facts about [strconv.Itoa] and the mail *)

Module NotifyFacts.

Import Parse Notify ParseFacts.

Lemma digit_char_spec d : 0 <= d <= 9 ->
  is_digit (digit_char d) = true /\ digit_val (digit_char d) = d /\
  Ascii.eqb (digit_char d) "-"%char = false /\ Ascii.eqb (digit_char d) "+"%char = false.
Proof.
  intros H.
  assert (d = 0 \/ d = 1 \/ d = 2 \/ d = 3 \/ d = 4 \/ d = 5 \/ d = 6 \/ d = 7 \/ d = 8 \/ d = 9)
    as Hd by lia.
  repeat destruct Hd as [->|Hd]; [..|subst d]; vm_compute; auto.
Qed.

Lemma digits_value_app a l1 l2 :
  digits_value a (l1 ++ l2) =
  match digits_value a l1 with Some b => digits_value b l2 | None => None end.
Proof.
  revert a; induction l1 as [|d l1 IH]; intros a; simpl; [done|].
  destruct (is_digit d); [apply IH | done].
Qed.

Lemma dec_digits_spec f : forall u acc, 0 <= u < 10 ^ (Z.of_nat f + 1) ->
  exists ds, dec_digits f u acc = ds ++ acc /\ ds <> [] /\
    Forall (fun a => is_digit a = true) ds /\
    forall a, digits_value a ds = Some (a * 10 ^ Z.of_nat (length ds) + u).
Proof.
  induction f as [|f IH]; intros u acc Hu.
  - rewrite Z.add_0_l, Z.pow_1_r in Hu. cbn [dec_digits].
    destruct (Z.ltb_spec u 10); [|lia].
    destruct (digit_char_spec u ltac:(lia)) as (H1 & H2 & _).
    exists [digit_char u]. split; [done|]. split; [done|]. split; [by constructor|].
    intros a. cbn [digits_value]. rewrite H1, H2. cbn [length Z.of_nat]; f_equal; lia.
  - cbn [dec_digits]. destruct (Z.ltb_spec u 10).
    + destruct (digit_char_spec u ltac:(lia)) as (H1 & H2 & _).
      exists [digit_char u]. split; [done|]. split; [done|]. split; [by constructor|].
      intros a. cbn [digits_value]. rewrite H1, H2. cbn [length Z.of_nat]; f_equal; lia.
    + assert (Hq : 0 <= u / 10 < 10 ^ (Z.of_nat f + 1)).
      { rewrite Nat2Z.inj_succ, <- Z.add_1_r, Z.pow_add_r, Z.pow_1_r in Hu by lia.
        split; [apply Z.div_pos; lia|]. apply Z.div_lt_upper_bound; lia. }
      destruct (IH (u / 10) (digit_char (u mod 10) :: acc) Hq) as (ds & Hds & Hne & Hall & Hval).
      pose proof (Z.mod_pos_bound u 10 ltac:(lia)) as Hm.
      destruct (digit_char_spec (u mod 10) ltac:(lia)) as (H1 & H2 & _).
      exists (ds ++ [digit_char (u mod 10)]). split; [by rewrite Hds, <- app_assoc|].
      split; [by destruct ds|]. split; [apply Forall_app; split; [exact Hall | by constructor]|].
      intros a. rewrite digits_value_app, Hval. cbn [digits_value]. rewrite H1, H2.
      rewrite length_app. cbn [length]. rewrite Nat2Z.inj_add, Z.pow_add_r by lia.
      rewrite Z.pow_1_r. f_equal. pose proof (Z.div_mod u 10 ltac:(lia)). lia.
Qed.

Lemma itoa_atoi_value n : in_int n = true -> atoi (itoa n) = Ok n.
Proof.
  intros Hn. unfold in_int, int_min, int_max in Hn.
  apply andb_true_iff in Hn as [Hlo Hhi]. apply Z.leb_le in Hlo, Hhi.
  assert (Hsv : signed_value (itoa n) = Some n).
  { unfold itoa. destruct (Z.ltb_spec n 0).
    - destruct (dec_digits_spec 20 (- n) [] ltac:(cbn [Z.of_nat]; lia)) as (ds & Hds & Hne & Hall & Hval).
      rewrite Hds, app_nil_r. unfold signed_value. simpl (Ascii.eqb "-"%char "-"%char).
      cbv iota. destruct ds as [|d ds']; [done|]. rewrite Hval; f_equal; lia.
    - destruct (dec_digits_spec 20 n [] ltac:(cbn [Z.of_nat]; lia)) as (ds & Hds & Hne & Hall & Hval).
      rewrite Hds, app_nil_r. unfold signed_value.
      destruct ds as [|d ds']; [done|].
      assert (Hd : is_digit d = true) by (by inversion Hall).
      assert (Ascii.eqb d "-"%char = false) as E1.
      { apply Ascii.eqb_neq. intros ->. discriminate. }
      assert (Ascii.eqb d "+"%char = false) as E2.
      { apply Ascii.eqb_neq. intros ->. discriminate. }
      rewrite E1, E2, Hval; f_equal; lia. }
  destruct (ParseFacts.atoi_value _ _ Hsv) as [[H _] | [_ H]]; [exact H|].
  unfold in_int, int_min, int_max in H. apply andb_false_iff in H as [H|H]; apply Z.leb_gt in H; lia.
Qed.

Lemma header_no_cr : forallb (fun x => negb (Ascii.eqb x (ascii_of_nat 13))) mail_header = true.
Proof. reflexivity. Qed.

Lemma match_at_not_E a l : Ascii.eqb a "E"%char = false -> match_at (a :: l) = None.
Proof.
  intros Ha. unfold match_at.
  assert (Hp : pat_prefix = "E"%char :: skipn 1 pat_prefix) by reflexivity.
  rewrite Hp. cbn [strip_prefix].
  destruct (ascii_dec "E"%char a) as [<-|]; [discriminate | reflexivity].
Qed.

Lemma find_submatch_skip pre s :
  (forall a, a ∈ pre -> Ascii.eqb a "E"%char = false) -> find_submatch (pre ++ s) = find_submatch s.
Proof.
  induction pre as [|a pre IH]; intros H; [done|].
  cbn [app find_submatch]. rewrite match_at_not_E by (apply H; set_solver).
  apply IH. intros b Hb. apply H. set_solver.
Qed.

Lemma find_submatch_here s g : match_at s = Some g -> find_submatch s = Some g.
Proof. destruct s as [|a s]; [by rewrite ParseFacts.match_at_nil|]. simpl. by intros ->. Qed.

Lemma itoa_group n : in_int n = true -> group_ok (itoa n).
Proof.
  intros Hn. unfold in_int, int_min, int_max in Hn.
  apply andb_true_iff in Hn as [Hlo Hhi]. apply Z.leb_le in Hlo, Hhi.
  unfold itoa. destruct (Z.ltb_spec n 0).
  - destruct (dec_digits_spec 20 (- n) [] ltac:(cbn [Z.of_nat]; lia)) as (ds & Hds & Hne & Hall & _).
    rewrite Hds, app_nil_r. exists ds. auto.
  - destruct (dec_digits_spec 20 n [] ltac:(cbn [Z.of_nat]; lia)) as (ds & Hds & Hne & Hall & _).
    rewrite Hds, app_nil_r. exists ds. auto.
Qed.

End NotifyFacts.

(* ------------------------------------------------------------------ *)
(** * The claims *)

Module Claims.

Import Parse Server Runs ServerInv ServerTrace ServerZombie ParseFacts.




(** A watcher whose HTTP call fails leaves its key registered. *)
Lemma zombie_after_error s c w r :
  reachable s -> watchers s !! c = Some w -> w_pc w = WChecking -> availability r = None ->
  exists s1, step s (ACheckResult c r) = Some s1 /\
    watchers s1 !! c = Some (with_pc w WDone) /\ zombie s1 (w_email w) c.
Proof.
  intros Hr Hw Hp Ha. pose proof (reachable_Inv s Hr) as I.
  assert (Hreg : reg s !! w_email w = Some c) by (apply (inv_live _ I c w Hw); by rewrite Hp).
  eexists. split.
  { simpl. rewrite Hw, Hp. simpl. rewrite Ha. reflexivity. }
  split; [simpl; by rewrite lookup_insert_eq|].
  split; [intros He; rewrite He, (inv_reg_nonempty _ I) in Hreg; discriminate|].
  split; [exact Hreg|].
  split; [exists (with_pc w WDone); simpl; by rewrite lookup_insert_eq|].
  intros j e'. simpl. split; intros Hj.
  - destruct (inv_after_send _ I j e' c (or_introl Hj)) as (_ & w' & Hw' & Hd).
    rewrite Hw in Hw'. injection Hw' as <-. congruence.
  - destruct (inv_after_send _ I j e' c (or_intror Hj)) as (_ & w' & Hw' & Hd).
    rewrite Hw in Hw'. injection Hw' as <-. congruence.
Qed.

(** The state right after the failing tick of [run_zombie]. *)
Lemma zombie_run : zombie (run_of run_zombie) "a" 0.
Proof.
  split; [discriminate|]. split; [vm_compute; reflexivity|].
  split; [eexists; split; vm_compute; reflexivity|].
  intros j e'. vm_compute. destruct j as [|j]; split; discriminate.
Qed.

(** ** C1 *)

(** C1 (counterexample): after the watcher of "a" returned on a failed
    HTTP call, a second Start of "a" answers AlreadyActive although no
    watcher goroutine for "a" is running any more. *)
Lemma C1_counterexample :
  let acts := run_zombie ++ [AReqStart "a" "2"; AHandler 1] in
  let s := run_of acts in
  exec init acts = Some s /\ handlers s !! 1%nat = Some (HDone RAlreadyActive) /\
  reg s !! "a" = Some 0%nat /\ running_for s "a" = 0%nat.
Proof. vm_compute. repeat split; reflexivity. Qed.

(** Watchers that have not returned, of one key, all sit on one channel:
    then there is at most one of them. *)
Lemma running_for_le_one s e c :
  (forall c' w, watchers s !! c' = Some w -> is_running w = true -> w_email w = e -> c' = c) ->
  (running_for s e <= 1)%nat.
Proof.
  intros Hc. unfold running_for.
  remember (List.filter _ (map_to_list (watchers s))) as L eqn:EL.
  assert (HN : List.NoDup L).
  { rewrite EL. apply List.NoDup_filter, NoDup_ListNoDup, NoDup_map_to_list. }
  assert (Hall : forall x, List.In x L -> x.1 = c /\ watchers s !! c = Some x.2).
  { intros [c' w] Hx. rewrite EL in Hx. apply filter_In in Hx as [Hm Hf].
    apply list_elem_of_In, elem_of_map_to_list in Hm.
    simpl in Hf. apply andb_true_iff in Hf as [Hrun He].
    apply String.eqb_eq in He. pose proof (Hc c' w Hm Hrun He) as ->. done. }
  destruct L as [|x [|y l]]; simpl; [lia|lia|].
  exfalso. inversion HN as [|? ? Hx _]; subst.
  destruct (Hall x (or_introl eq_refl)) as [Hx1 Hx2].
  destruct (Hall y (or_intror (or_introl eq_refl))) as [Hy1 Hy2].
  apply Hx. left. destruct x as [cx wx], y as [cy wy]; simpl in *. subst. congruence.
Qed.

(** ... and when there is none, there is no such watcher at all. *)
Lemma running_for_zero s e :
  (forall c' w, watchers s !! c' = Some w -> is_running w = true -> w_email w = e -> False) ->
  running_for s e = 0%nat.
Proof.
  intros Hc. unfold running_for.
  remember (List.filter _ (map_to_list (watchers s))) as L eqn:EL.
  destruct L as [|[c' w] l]; [done|]. exfalso.
  assert (Hx : List.In (c', w) (List.filter
                 (fun cw : nat * watcher => is_running cw.2 && String.eqb (w_email cw.2) e)
                 (map_to_list (watchers s)))) by (rewrite <- EL; left; reflexivity).
  apply filter_In in Hx as [Hm Hf].
  apply list_elem_of_In, elem_of_map_to_list in Hm.
  simpl in Hf. apply andb_true_iff in Hf as [Hrun He]. apply String.eqb_eq in He.
  exact (Hc c' w Hm Hrun He).
Qed.

(** C1 (amended): while a key is registered, a Start for it with
    non-empty arguments that takes the lock answers AlreadyActive and
    changes nothing but its own program point; and in every reachable
    state, locked or not, a watcher goroutine of a key that has not
    returned sits on the key's registered channel, so a key has at most
    one running watcher and an unregistered key has none (a returned
    watcher may leave the key registered with none). *)
Theorem C1_already_active s e :
  reachable s ->
  (forall i t, handlers s !! i = Some (HStart e t) -> e <> "" -> t <> "" ->
     locked s = false -> is_Some (reg s !! e) ->
     step s (AHandler i) = Some (set_handler s i (HDone RAlreadyActive))) /\
  (forall c w, watchers s !! c = Some w -> w_email w = e -> is_running w = true ->
     reg s !! e = Some c) /\
  (running_for s e <= 1)%nat /\
  (reg s !! e = None -> running_for s e = 0%nat).
Proof.
  intros Hr. pose proof (reachable_Inv s Hr) as I.
  assert (L : forall c w, watchers s !! c = Some w -> w_email w = e -> is_running w = true ->
                reg s !! e = Some c).
  { intros c w Hw He Hrun. rewrite <- He. apply (inv_live _ I c w Hw).
    unfold is_running in Hrun. intros Hd. rewrite Hd in Hrun. discriminate. }
  split; [|split; [exact L|]].
  - intros i t Hi He Ht Hl [c Hc]. simpl. rewrite Hi. simpl.
    apply String.eqb_neq in He, Ht. rewrite He, Ht, Hl, Hc. reflexivity.
  - destruct (reg s !! e) as [c|] eqn:Hc.
    + split; [|discriminate]. apply (running_for_le_one s e c).
      intros c' w Hw Hrun He. pose proof (L c' w Hw He Hrun) as H. congruence.
    + assert (Hz : running_for s e = 0%nat).
      { apply running_for_zero. intros c' w Hw Hrun He.
        pose proof (L c' w Hw He Hrun) as H. congruence. }
      split; [lia|]. intros _. exact Hz.
Qed.

Lemma C1_already_active_witness :
  let s := run_of (run_started ++ [AReqStart "a" "2"]) in
  step s (AHandler 1) = Some (set_handler s 1 (HDone RAlreadyActive)) /\
  reg s !! "a" = Some 0%nat /\ (running_for s "a" <= 1)%nat.
Proof.
  intros s.
  assert (Hr : reachable s).
  { apply (exec_init_reachable (run_started ++ [AReqStart "a" "2"])). vm_compute. reflexivity. }
  destruct (C1_already_active s "a" Hr) as (H1 & H2 & H3 & _).
  split; [|split; [|exact H3]].
  - apply (H1 1%nat "2"); [vm_compute; reflexivity | discriminate | discriminate |
                       vm_compute; reflexivity | vm_compute; eexists; reflexivity].
  - apply (H2 0%nat (mkW "a" "1" WSelect)); vm_compute; reflexivity.
Defined.

(** ** C2 *)

(** C2 (counterexample): after the failing tick, a fresh Start of "a"
    answers AlreadyActive, and a Stop of "a" takes the lock and then never
    gets to answer NotFound, whatever happens next. *)
Lemma C2_counterexample :
  let acts := run_zombie ++ [AReqStart "a" "2"; AHandler 1; AReqStop "a"; AHandler 2] in
  let s := run_of acts in
  exec init acts = Some s /\ handlers s !! 1%nat = Some (HDone RAlreadyActive) /\
  handlers s !! 2%nat = Some (HSend "a" 0) /\
  forall acts' s', exec s acts' = Some s' -> handlers s' !! 2%nat <> Some (HDone RNotFound).
Proof.
  intros acts s.
  assert (E : exec (run_of run_zombie) [AReqStart "a" "2"; AHandler 1; AReqStop "a"; AHandler 2]
              = Some s) by (vm_compute; reflexivity).
  assert (Rz : reachable (run_of run_zombie))
    by (apply (exec_init_reachable run_zombie); vm_compute; reflexivity).
  destruct (zombie_exec _ _ _ _ _ Rz zombie_run E) as (Zs & _ & _).
  assert (Rs : reachable s) by (eapply exec_reachable; eauto).
  assert (H2 : handlers s !! 2%nat = Some (HSend "a" 0)) by (vm_compute; reflexivity).
  split; [vm_compute; reflexivity|]. split; [vm_compute; reflexivity|]. split; [exact H2|].
  intros acts' s' E'.
  destruct (zombie_exec _ _ _ _ _ Rs Zs E') as (_ & Hst & _).
  destruct (Hst 2%nat (or_intror H2)) as [-> | ->]; discriminate.
Qed.

(** C2 (amended): when the availability check of a tick fails, the
    watcher returns but its key stays registered with its channel for
    ever: from then on every Start of the key that takes the lock answers
    AlreadyActive, and no Stop of the key ever answers NotFound. *)
Theorem C2_error_keeps_key s c w r :
  reachable s -> watchers s !! c = Some w -> w_pc w = WChecking -> availability r = None ->
  exists s1, step s (ACheckResult c r) = Some s1 /\ watchers s1 !! c = Some (with_pc w WDone) /\
  forall acts s2, exec s1 acts = Some s2 ->
    reg s2 !! w_email w = Some c /\
    (forall i t, handlers s2 !! i = Some (HStart (w_email w) t) -> t <> "" -> locked s2 = false ->
       step s2 (AHandler i) = Some (set_handler s2 i (HDone RAlreadyActive))) /\
    (forall i acts' s3, handlers s2 !! i = Some (HStop (w_email w)) -> exec s2 acts' = Some s3 ->
       handlers s3 !! i <> Some (HDone RNotFound)).
Proof.
  intros Hr Hw Hp Ha.
  destruct (zombie_after_error s c w r Hr Hw Hp Ha) as (s1 & Hs1 & Hw1 & Z1).
  exists s1. split; [exact Hs1|]. split; [exact Hw1|].
  intros acts s2 E.
  assert (R1 : reachable s1) by (eapply reach_step; eauto).
  destruct (zombie_exec _ _ _ _ _ R1 Z1 E) as (Z2 & _ & _).
  pose proof Z2 as (Hne & Hreg & _ & _).
  split; [exact Hreg|]. split.
  - intros i t Hi Ht Hl. simpl. rewrite Hi. simpl.
    apply String.eqb_neq in Hne, Ht. rewrite Hne, Ht, Hl, Hreg. reflexivity.
  - intros i acts' s3 Hi E'.
    assert (R2 : reachable s2) by (eapply exec_reachable; eauto).
    destruct (zombie_exec _ _ _ _ _ R2 Z2 E') as (_ & Hst & _).
    destruct (Hst i (or_introl Hi)) as [-> | ->]; discriminate.
Qed.

Lemma C2_error_keeps_key_witness :
  exists s1, step (run_of (run_started ++ [ATick 0])) (ACheckResult 0 None) = Some s1 /\
    watchers s1 !! 0%nat = Some (with_pc (mkW "a" "1" WChecking) WDone) /\
  forall acts s2, exec s1 acts = Some s2 ->
    reg s2 !! "a" = Some 0%nat /\
    (forall i t, handlers s2 !! i = Some (HStart "a" t) -> t <> "" -> locked s2 = false ->
       step s2 (AHandler i) = Some (set_handler s2 i (HDone RAlreadyActive))) /\
    (forall i acts' s3, handlers s2 !! i = Some (HStop "a") -> exec s2 acts' = Some s3 ->
       handlers s3 !! i <> Some (HDone RNotFound)).
Proof.
  refine (C2_error_keeps_key (run_of (run_started ++ [ATick 0])) 0 (mkW "a" "1" WChecking) None
            _ _ _ _).
  - apply (exec_init_reachable (run_started ++ [ATick 0])). vm_compute. reflexivity.
  - vm_compute. reflexivity.
  - reflexivity.
  - reflexivity.
Defined.

(** ** C3 *)




(** ** C4 *)

(** C4: a Stop for a key that is not registered, once it takes the lock,
    answers NotFound and changes nothing but its own program point. *)
Theorem C4_stop_unknown s i e :
  handlers s !! i = Some (HStop e) -> e <> "" -> locked s = false -> reg s !! e = None ->
  step s (AHandler i) = Some (set_handler s i (HDone RNotFound)) /\
  reg (set_handler s i (HDone RNotFound)) = reg s /\
  locked (set_handler s i (HDone RNotFound)) = locked s /\
  watchers (set_handler s i (HDone RNotFound)) = watchers s /\
  trace (set_handler s i (HDone RNotFound)) = trace s.
Proof.
  intros Hi He Hl Hr. split; [|done].
  simpl. rewrite Hi. simpl. apply String.eqb_neq in He. by rewrite He, Hl, Hr.
Qed.

Lemma C4_stop_unknown_witness :
  step (run_of [AReqStop "a"]) (AHandler 0) = Some (set_handler (run_of [AReqStop "a"]) 0 (HDone RNotFound)) /\
  reg (set_handler (run_of [AReqStop "a"]) 0 (HDone RNotFound)) = reg (run_of [AReqStop "a"]) /\
  locked (set_handler (run_of [AReqStop "a"]) 0 (HDone RNotFound)) = locked (run_of [AReqStop "a"]) /\
  watchers (set_handler (run_of [AReqStop "a"]) 0 (HDone RNotFound)) = watchers (run_of [AReqStop "a"]) /\
  trace (set_handler (run_of [AReqStop "a"]) 0 (HDone RNotFound)) = trace (run_of [AReqStop "a"]).
Proof.
  refine (C4_stop_unknown (run_of [AReqStop "a"]) 0 "a" _ _ _ _).
  - vm_compute. reflexivity.
  - discriminate.
  - vm_compute. reflexivity.
  - vm_compute. reflexivity.
Defined.

(** ** C5 *)

(** C5: when the check of a tick yields a count [n], the watcher calls
    [sendEmailNotification] for its key, [n] and its CRN exactly once
    before its next availability request if [n > 0], and not at all if
    [n <= 0], in which case it is straight back in its select. *)
Theorem C5_notify_iff_positive s c w r n :
  reachable s -> watchers s !! c = Some w -> w_pc w = WChecking -> availability r = Some n ->
  exists s1, step s (ACheckResult c r) = Some s1 /\
  (n <= 0 -> watchers s1 !! c = Some (with_pc w WSelect)) /\
  forall acts s2, exec s1 acts = Some s2 ->
    exists new, trace s2 = new ++ trace s1 /\
      (n <= 0 -> notifications (before_tick (chron c new)) = []) /\
      (0 < n -> (exists c0 t0, ECheck c0 t0 ∈ chron c new) ->
         notifications (before_tick (chron c new)) = [(w_email w, n, w_crn w)]).
Proof.
  intros Hr Hw Hp Ha.
  set (p := if 0 <? n then WNotifying n else WSelect).
  assert (Hs1 : step s (ACheckResult c r) = Some (set_watcher s c (with_pc w p) [ECheckRes c (Some n)])).
  { simpl. rewrite Hw, Hp. simpl. by rewrite Ha. }
  eexists. split; [exact Hs1|]. split.
  { intros Hn. unfold p. apply Z.ltb_ge in Hn. rewrite Hn. simpl. by rewrite lookup_insert_eq. }
  intros acts s2 E.
  assert (R1 : reachable (set_watcher s c (with_pc w p) [ECheckRes c (Some n)]))
    by (eapply reach_step; eauto).
  assert (Hw1 : watchers (set_watcher s c (with_pc w p) [ECheckRes c (Some n)]) !! c
                = Some (with_pc w p)) by (simpl; by rewrite lookup_insert_eq).
  destruct (exec_wrun _ _ _ _ _ R1 Hw1 E) as (w' & new & _ & _ & _ & Htr & Hrun).
  exists new. split; [exact Htr|]. simpl in Hrun. split.
  - intros Hn. unfold p in Hrun. apply Z.ltb_ge in Hn. rewrite Hn in Hrun.
    eapply wrun_idle_no_notify; [left; reflexivity | exact Hrun].
  - intros Hn Hck. unfold p in Hrun. apply Z.ltb_lt in Hn. rewrite Hn in Hrun.
    eapply wrun_notifying; eauto.
Qed.

Lemma C5_notify_iff_positive_witness :
  exists s1, step (run_of (run_started ++ [ATick 0])) (ACheckResult 0 (Some (seats_page "5"))) = Some s1 /\
  (5 <= 0 -> watchers s1 !! 0%nat = Some (with_pc (mkW "a" "1" WChecking) WSelect)) /\
  forall acts s2, exec s1 acts = Some s2 ->
    exists new, trace s2 = new ++ trace s1 /\
      (5 <= 0 -> notifications (before_tick (chron 0 new)) = []) /\
      (0 < 5 -> (exists c0 t0, ECheck c0 t0 ∈ chron 0 new) ->
         notifications (before_tick (chron 0 new)) = [("a", 5, "1")]).
Proof.
  refine (C5_notify_iff_positive (run_of (run_started ++ [ATick 0])) 0 (mkW "a" "1" WChecking)
            (Some (seats_page "5")) 5 _ _ _ _).
  - apply (exec_init_reachable (run_started ++ [ATick 0])). vm_compute. reflexivity.
  - vm_compute. reflexivity.
  - reflexivity.
  - vm_compute. reflexivity.
Defined.

(** ** C6 *)

(** C6: when [sendEmailNotification] fails, the watcher only logs it: it
    is back in its select with the registry untouched, and its next tick
    sends the availability request for its CRN again. *)
Theorem C6_notify_error_nonfatal s c w n :
  watchers s !! c = Some w -> w_pc w = WNotifying n ->
  exists s1 s2, step s (ANotifyResult c false) = Some s1 /\
    watchers s1 !! c = Some (with_pc w WSelect) /\
    trace s1 = ENotify c (w_email w) n (w_crn w) false :: trace s /\ reg s1 = reg s /\
    step s1 (ATick c) = Some s2 /\ trace s2 = ECheck c (w_crn w) :: trace s1.
Proof.
  intros Hw Hp.
  set (s1 := set_watcher s c (with_pc w WSelect) [ENotify c (w_email w) n (w_crn w) false]).
  assert (Hw1 : watchers s1 !! c = Some (with_pc w WSelect)) by (simpl; by rewrite lookup_insert_eq).
  exists s1, (set_watcher s1 c (with_pc (with_pc w WSelect) WChecking) [ECheck c (w_crn w)]).
  split; [simpl; by rewrite Hw, Hp|]. split; [exact Hw1|]. split; [reflexivity|].
  split; [reflexivity|]. split; [|reflexivity].
  simpl. rewrite lookup_insert_eq. reflexivity.
Qed.

Lemma C6_notify_error_nonfatal_witness :
  exists s1 s2,
    step (run_of (run_started ++ [ATick 0; ACheckResult 0 (Some (seats_page "5"))]))
         (ANotifyResult 0 false) = Some s1 /\
    watchers s1 !! 0%nat = Some (with_pc (mkW "a" "1" (WNotifying 5)) WSelect) /\
    trace s1 = ENotify 0 "a" 5 "1" false
               :: trace (run_of (run_started ++ [ATick 0; ACheckResult 0 (Some (seats_page "5"))])) /\
    reg s1 = reg (run_of (run_started ++ [ATick 0; ACheckResult 0 (Some (seats_page "5"))])) /\
    step s1 (ATick 0) = Some s2 /\ trace s2 = ECheck 0 "1" :: trace s1.
Proof.
  refine (C6_notify_error_nonfatal
            (run_of (run_started ++ [ATick 0; ACheckResult 0 (Some (seats_page "5"))])) 0
            (mkW "a" "1" (WNotifying 5)) 5 _ _).
  - vm_compute. reflexivity.
  - reflexivity.
Defined.

(** ** C7 *)

(** C7: when a Stop answers Stopped (its [delete] step), the watcher of
    the key's channel has already returned, because the send completes
    only together with the watcher's receive; from then on the channel
    sees no availability request and no notification at all, in flight or
    not. *)
Theorem C7_stop_ends_polling s i e c s1 :
  reachable s -> handlers s !! i = Some (HDelete e c) -> step s (AHandler i) = Some s1 ->
  handlers s1 !! i = Some (HDone RStopped) /\ reg s !! e = Some c /\ reg s1 !! e = None /\
  (exists w, watchers s1 !! c = Some w /\ w_pc w = WDone) /\
  forall acts s2, exec s1 acts = Some s2 -> exists new, trace s2 = new ++ trace s1 /\
    (forall t, ECheck c t ∉ new) /\ (forall e' n t ok, ENotify c e' n t ok ∉ new).
Proof.
  intros Hr Hi Hs. pose proof (reachable_Inv s Hr) as I.
  destruct (inv_after_send _ I i e c (or_intror Hi)) as (Hreg & w & Hw & Hd).
  simpl in Hs. rewrite Hi in Hs. simpl in Hs. injection Hs as <-.
  split; [simpl; apply list_lookup_insert_eq; eapply lookup_lt_Some; eauto|].
  split; [exact Hreg|]. split; [simpl; apply lookup_delete_eq|].
  split; [exists w; split; [exact Hw | exact Hd]|].
  intros acts s2 E.
  assert (R1 : reachable (mkS (delete e (reg s)) false (next_chan s) (closed s)
                 (<[i:=HDone RStopped]> (handlers s)) (watchers s) (trace s))).
  { apply (reach_step s (AHandler i)); [exact Hr|]. simpl. rewrite Hi. reflexivity. }
  destruct (exec_wrun _ _ _ _ _ R1 Hw E) as (w' & new & _ & _ & _ & Htr & Hrun).
  rewrite Hd in Hrun. destruct (wrun_done _ _ _ _ Hrun) as [_ Hcl].
  exists new. split; [exact Htr|]. split.
  - intros t Hin. destruct (Hcl _ (elem_of_chron _ c _ Hin eq_refl)) as [? ?]. discriminate.
  - intros e' n t ok Hin. destruct (Hcl _ (elem_of_chron _ c _ Hin eq_refl)) as [? ?]. discriminate.
Qed.

Lemma C7_stop_ends_polling_witness :
  let s := run_of (run_started ++ [AReqStop "a"; AHandler 1; AHandler 1; AHandler 1]) in
  let s1 := run_of (run_started ++ [AReqStop "a"; AHandler 1; AHandler 1; AHandler 1; AHandler 1]) in
  handlers s1 !! 1%nat = Some (HDone RStopped) /\ reg s !! "a" = Some 0%nat /\ reg s1 !! "a" = None /\
  (exists w, watchers s1 !! 0%nat = Some w /\ w_pc w = WDone) /\
  forall acts s2, exec s1 acts = Some s2 -> exists new, trace s2 = new ++ trace s1 /\
    (forall t, ECheck 0 t ∉ new) /\ (forall e' n t ok, ENotify 0 e' n t ok ∉ new).
Proof.
  intros s s1.
  refine (C7_stop_ends_polling s 1 "a" 0 s1 _ _ _).
  - apply (exec_init_reachable (run_started ++ [AReqStop "a"; AHandler 1; AHandler 1; AHandler 1])).
    vm_compute. reflexivity.
  - vm_compute. reflexivity.
  - vm_compute. reflexivity.
Defined.

(** ** C8 *)

(** C8 (counterexample): the Stop of "a" has completed its send on the
    channel while the key is still registered: the entry is deleted after
    the send and the close, not before. *)
Lemma C8_counterexample :
  let acts := run_started ++ [AReqStop "a"; AHandler 1; AHandler 1] in
  let s := run_of acts in
  exec init acts = Some s /\ ESend 0 ∈ trace s /\ reg s !! "a" = Some 0%nat.
Proof.
  intros acts s. split; [vm_compute; reflexivity|]. split; [|vm_compute; reflexivity].
  apply list_elem_of_In. vm_compute. left. reflexivity.
Qed.

(** C8 (amended): a channel is sent on at most once and closed at most
    once; once its watcher has returned (on the signal or on its own)
    nothing sends on it again; and the Stop handler's critical section runs
    send, close, delete in that order: the send and the close happen under
    the lock with the key still registered to the channel, and the delete,
    taken with the lock still held and the key still registered, is the
    step that removes the entry and releases the lock. *)
Theorem C8_signal_once s c :
  reachable s ->
  ((ev_count (ESend c) (trace s) <= 1)%nat /\ (ev_count (EClose c) (trace s) <= 1)%nat) /\
  (forall w, watchers s !! c = Some w -> w_pc w = WDone ->
     forall acts s', exec s acts = Some s' ->
       ev_count (ESend c) (trace s') = ev_count (ESend c) (trace s)) /\
  (forall i e s1, handlers s !! i = Some (HSend e c) -> step s (AHandler i) = Some s1 ->
     locked s = true /\ reg s1 !! e = Some c /\ locked s1 = true /\ ESend c ∈ trace s1 /\
     handlers s1 !! i = Some (HClose e c)) /\
  (forall i e s1, handlers s !! i = Some (HClose e c) -> step s (AHandler i) = Some s1 ->
     locked s = true /\ reg s1 !! e = Some c /\ locked s1 = true /\ EClose c ∈ trace s1 /\
     c ∈ closed s1 /\ handlers s1 !! i = Some (HDelete e c)) /\
  (forall i e s1, handlers s !! i = Some (HDelete e c) -> step s (AHandler i) = Some s1 ->
     locked s = true /\ reg s !! e = Some c /\ reg s1 !! e = None /\ locked s1 = false /\
     handlers s1 !! i = Some (HDone RStopped)).
Proof.
  intros Hr. pose proof (reachable_Inv s Hr) as I.
  assert (Hlk : forall i h, handlers s !! i = Some h -> crit h = true -> locked s = true).
  { intros i h Hi Hc. apply (inv_lock _ I). exists i, h. auto. }
  assert (Hins : forall i h h', handlers s !! i = Some h -> <[i := h']> (handlers s) !! i = Some h').
  { intros i h h' Hi. apply list_lookup_insert_eq. eapply lookup_lt_Some; eauto. }
  split; [split; [apply (inv_esend_once _ I) | apply (inv_eclose_once _ I)]|]. split.
  - intros w Hw Hd acts s' E.
    destruct (exec_wrun _ _ _ _ _ Hr Hw E) as (w' & new & _ & _ & _ & Htr & Hrun).
    rewrite Hd in Hrun. destruct (wrun_done _ _ _ _ Hrun) as [_ Hcl].
    rewrite Htr, ev_count_app, ev_count_not_in; [lia|].
    intros Hin. destruct (Hcl _ (elem_of_chron _ c _ Hin eq_refl)) as [? ?]. discriminate.
  - split; [|split].
    + intros i e s1 Hi Hs.
      pose proof (inv_send _ I i e c Hi) as Hreg.
      pose proof (Hlk i _ Hi eq_refl) as Hl.
      simpl in Hs. rewrite Hi in Hs. simpl in Hs.
      destruct (watchers s !! c) as [w|]; [|discriminate].
      destruct (w_pc w); try discriminate.
      injection Hs as <-. simpl. split; [exact Hl|]. split; [exact Hreg|].
      split; [exact Hl|]. split; [apply list_elem_of_In; left; reflexivity|].
      eapply Hins; eauto.
    + intros i e s1 Hi Hs.
      destruct (inv_after_send _ I i e c (or_introl Hi)) as (Hreg & _).
      pose proof (Hlk i _ Hi eq_refl) as Hl.
      simpl in Hs. rewrite Hi in Hs. simpl in Hs. injection Hs as <-. simpl.
      split; [exact Hl|]. split; [exact Hreg|]. split; [exact Hl|].
      split; [apply list_elem_of_In; left; reflexivity|]. split; [set_solver|].
      eapply Hins; eauto.
    + intros i e s1 Hi Hs.
      destruct (inv_after_send _ I i e c (or_intror Hi)) as (Hreg & _).
      pose proof (Hlk i _ Hi eq_refl) as Hl.
      simpl in Hs. rewrite Hi in Hs. simpl in Hs. injection Hs as <-. simpl.
      split; [exact Hl|]. split; [exact Hreg|]. split; [apply lookup_delete_eq|].
      split; [reflexivity|]. eapply Hins; eauto.
Qed.

Lemma C8_signal_once_witness :
  let s := run_of (run_started ++ [AReqStop "a"; AHandler 1]) in
  ((ev_count (ESend 0) (trace s) <= 1)%nat /\ (ev_count (EClose 0) (trace s) <= 1)%nat) /\
  (forall w, watchers s !! 0%nat = Some w -> w_pc w = WDone ->
     forall acts s', exec s acts = Some s' ->
       ev_count (ESend 0) (trace s') = ev_count (ESend 0) (trace s)) /\
  (forall i e s1, handlers s !! i = Some (HSend e 0) -> step s (AHandler i) = Some s1 ->
     locked s = true /\ reg s1 !! e = Some 0%nat /\ locked s1 = true /\ ESend 0 ∈ trace s1 /\
     handlers s1 !! i = Some (HClose e 0)) /\
  (forall i e s1, handlers s !! i = Some (HClose e 0) -> step s (AHandler i) = Some s1 ->
     locked s = true /\ reg s1 !! e = Some 0%nat /\ locked s1 = true /\ EClose 0 ∈ trace s1 /\
     0%nat ∈ closed s1 /\ handlers s1 !! i = Some (HDelete e 0)) /\
  (forall i e s1, handlers s !! i = Some (HDelete e 0) -> step s (AHandler i) = Some s1 ->
     locked s = true /\ reg s !! e = Some 0%nat /\ reg s1 !! e = None /\ locked s1 = false /\
     handlers s1 !! i = Some (HDone RStopped)).
Proof.
  intros s. refine (C8_signal_once s 0 _).
  apply (exec_init_reachable (run_started ++ [AReqStop "a"; AHandler 1])). vm_compute. reflexivity.
Defined.

(** ** C9 *)

(** C9 (failing run): with the watcher of "a" inside its HTTP call, a
    Stop of "a" takes the lock and blocks on the unbuffered send while
    holding it, so a Start of the different key "b" cannot proceed. *)
Lemma C9_failing_run :
  let acts := run_started ++ [ATick 0; AReqStop "a"; AHandler 1; AReqStart "b" "2"] in
  let s := run_of acts in
  exec init acts = Some s /\ locked s = true /\
  (exists w, watchers s !! 0%nat = Some w /\ w_pc w = WChecking) /\
  handlers s !! 1%nat = Some (HSend "a" 0) /\ step s (AHandler 1) = None /\
  handlers s !! 2%nat = Some (HStart "b" "2") /\ step s (AHandler 2) = None.
Proof.
  intros acts s. split; [vm_compute; reflexivity|]. split; [vm_compute; reflexivity|].
  split; [eexists; split; vm_compute; reflexivity|].
  repeat split; vm_compute; reflexivity.
Qed.

(** C9: once the watcher of a key has returned on a failed check, a Stop
    of that key that took the lock keeps it for ever, stuck at its send,
    and every pending Start of any key with non-empty arguments stays at
    its entry: the whole server is deadlocked. *)
Theorem C9_stop_holds_lock s e c i :
  reachable s -> zombie s e c -> handlers s !! i = Some (HSend e c) ->
  forall acts s', exec s acts = Some s' ->
    locked s' = true /\ handlers s' !! i = Some (HSend e c) /\
    forall j e' t, e' <> "" -> t <> "" -> handlers s !! j = Some (HStart e' t) ->
      handlers s' !! j = Some (HStart e' t).
Proof.
  intros Hr Z Hi acts s' E.
  destruct (zombie_exec _ _ _ _ _ Hr Z E) as (_ & _ & Hsend).
  destruct (Hsend i Hi) as (H1 & H2 & H3). auto.
Qed.

Lemma C9_stop_holds_lock_witness :
  let s := run_of (run_zombie ++ [AReqStop "a"; AHandler 1; AReqStart "b" "2"]) in
  let s' := run_of (run_zombie ++ [AReqStop "a"; AHandler 1; AReqStart "b" "2"; AReqStart "c" "3"]) in
  locked s' = true /\ handlers s' !! 1%nat = Some (HSend "a" 0) /\
  forall j e' t, e' <> "" -> t <> "" -> handlers s !! j = Some (HStart e' t) ->
    handlers s' !! j = Some (HStart e' t).
Proof.
  intros s s'.
  refine (C9_stop_holds_lock s "a" 0 1 _ _ _ [AReqStart "c" "3"] s' _).
  - apply (exec_init_reachable (run_zombie ++ [AReqStop "a"; AHandler 1; AReqStart "b" "2"])).
    vm_compute. reflexivity.
  - split; [discriminate|]. split; [vm_compute; reflexivity|].
    split; [eexists; split; vm_compute; reflexivity|].
    intros j e'. vm_compute. destruct j as [|[|[|j]]]; split; discriminate.
  - vm_compute. reflexivity.
  - vm_compute. reflexivity.
Defined.

(** ** C10 *)

(** C10 (counterexample): the pattern is present, with a count too large
    for Go's [int], and [parseAvailableSeats] still returns an error (the
    range error of [strconv.Atoi]). *)
Lemma C10_counterexample :
  regex_in (list_ascii_of_string (seats_page "99999999999999999999")) /\
  is_err (parseAvailableSeats (seats_page "99999999999999999999")) = true.
Proof.
  split; [|vm_compute; reflexivity].
  unfold seats_page. rewrite list_ascii_of_string_of_list_ascii.
  exists [], (list_ascii_of_string "99999999999999999999"), [].
  split; [by rewrite app_nil_r|].
  exists (list_ascii_of_string "99999999999999999999").
  split; [left; reflexivity|]. split; [discriminate|].
  repeat constructor.
Qed.

(** C10 (amended): [parseAvailableSeats] fails exactly when the pattern is
    absent or the captured integer lies outside Go's 64-bit [int]; the
    capture is the group of the leftmost match, always an integer, and is
    returned, negative or not, when it fits; a count [<= 0] sends the
    watcher straight back to its select without a notification. *)
Theorem C10_parse_result (html : string) :
  (is_err (parseAvailableSeats html) = true <->
     ~ regex_in (list_ascii_of_string html) \/
     exists g v, find_submatch (list_ascii_of_string html) = Some g /\
       signed_value g = Some v /\ in_int v = false) /\
  (forall g, find_submatch (list_ascii_of_string html) = Some g ->
     (exists pre post, list_ascii_of_string html = pre ++ pat_prefix ++ g ++ pat_suffix ++ post /\
        group_ok g /\
        forall pre' rest, list_ascii_of_string html = pre' ++ rest ->
          (length pre' < length pre)%nat -> match_at rest = None) /\
     exists v, signed_value g = Some v /\ (in_int v = true -> parseAvailableSeats html = Ok v)) /\
  (forall st c w n, watchers st !! c = Some w -> w_pc w = WChecking ->
     parseAvailableSeats html = Ok n -> n <= 0 ->
     step st (ACheckResult c (Some html))
     = Some (set_watcher st c (with_pc w WSelect) [ECheckRes c (Some n)])).
Proof.
  split; [|split].
  - unfold parseAvailableSeats.
    destruct (find_submatch (list_ascii_of_string html)) as [g|] eqn:Hf.
    + destruct (find_submatch_some _ _ Hf) as (pre & post & Hs & Hg & _).
      destruct (group_value g Hg) as [v Hv].
      assert (Hin : regex_in (list_ascii_of_string html)) by (exists pre, g, post; auto).
      destruct (atoi_value g v Hv) as [[Ho Hi] | [He Hi]].
      * rewrite Ho. split; [discriminate|].
        intros [Hn | (g' & v' & Hg' & Hv' & Hi')]; [contradiction|].
        injection Hg' as <-. rewrite Hv in Hv'. injection Hv' as <-. congruence.
      * rewrite He. split; [intros _; right; eauto | done].
    + split; [intros _; left; by apply find_submatch_none | done].
  - intros g Hf. split; [by apply find_submatch_some|].
    destruct (find_submatch_some _ _ Hf) as (pre & post & Hs & Hg & _).
    destruct (group_value g Hg) as [v Hv]. exists v. split; [exact Hv|].
    intros Hi. unfold parseAvailableSeats. rewrite Hf.
    destruct (atoi_value g v Hv) as [[Ho _] | [_ Hi']]; [exact Ho | congruence].
  - intros st c w n Hw Hp Hparse Hn. simpl. rewrite Hw, Hp. simpl.
    rewrite Hparse. apply Z.ltb_ge in Hn. by rewrite Hn.
Qed.

End Claims.

(* ------------------------------------------------------------------ *)
(** ** Further properties of the code *)

Module Extras.

Import Parse Form Notify FormFacts NotifyFacts Server ServerInv ServerInv2 Runs.

(** X1: [url.QueryEscape] as [Encode] applies it is undone by
    [url.QueryUnescape], and its output never contains the separators
    [&], [=] or [;] of the query syntax. *)
Theorem X1_query_escape_roundtrip s :
  query_unescape (query_escape s) = Some s /\
  (forall x, x ∈ query_escape s -> x <> "&"%char /\ x <> "="%char /\ x <> ";"%char).
Proof.
  split; [apply query_unescape_escape|].
  intros x Hx. destruct (escape_no_sep s x Hx) as (H1 & H2 & H3).
  apply Ascii.eqb_neq in H1, H2, H3. auto.
Qed.

(** X2: the body a watcher posts is [courseReferenceNumber=<escaped
    CRN>&term=202430] (keys in sorted order), and [url.ParseQuery] reads
    back from it exactly the two parameters, the CRN verbatim, with no
    error, whatever bytes the CRN holds. *)
Theorem X2_request_body_parses crn :
  request_body crn =
    list_ascii_of_string "courseReferenceNumber=" ++ query_escape (list_ascii_of_string crn) ++
    list_ascii_of_string "&term=202430" /\
  parse_query (request_body crn) =
  ([(list_ascii_of_string "courseReferenceNumber", [list_ascii_of_string crn]);
    (list_ascii_of_string "term", [list_ascii_of_string "202430"])], true).
Proof.
  split; [apply request_body_eq|].
  rewrite request_body_eq. set (E := query_escape (list_ascii_of_string crn)).
  assert (HE : no_seps E) by (intros c Hc; by apply (escape_no_sep (list_ascii_of_string crn))).
  set (P := list_ascii_of_string "courseReferenceNumber").
  set (T := list_ascii_of_string "term").
  set (V := list_ascii_of_string "202430").
  assert (Hb : list_ascii_of_string "courseReferenceNumber=" ++ E ++ list_ascii_of_string "&term=202430"
               = (P ++ "="%char :: E) ++ "&"%char :: (T ++ "="%char :: V))
    by (unfold P, T, V; rewrite <- app_assoc; reflexivity).
  unfold parse_query. rewrite Hb.
  assert (Hlen : (2 <= length ((P ++ "="%char :: E) ++ "&"%char :: (T ++ "="%char :: V)))%nat)
    by (rewrite !length_app; simpl; lia).
  destruct (length _) as [|[|f]]; [lia|lia|].
  rewrite (parse_loop_pair (S f) [] true P E (T ++ "="%char :: V) P (list_ascii_of_string crn));
    [| done | vm_compute; intros c Hc; set_solver | exact HE | reflexivity |
     unfold E; apply query_unescape_escape].
  rewrite (parse_loop_last f _ true T V T V);
    [reflexivity | done | vm_compute; intros c Hc; set_solver | vm_compute; intros c Hc; set_solver
    | reflexivity | reflexivity].
Qed.

(** X3: [strconv.Atoi] reads back what [strconv.Itoa] writes, for every
    value of Go's 64-bit [int]. *)
Theorem X3_itoa_atoi n : in_int n = true -> atoi (itoa n) = Ok n.
Proof. apply itoa_atoi_value. Qed.

Lemma X3_itoa_atoi_witness :
  in_int (- 2 ^ 63) = true /\ atoi (itoa (- 2 ^ 63)) = Ok (- 2 ^ 63).
Proof. split; [reflexivity | apply X3_itoa_atoi; reflexivity]. Defined.

(** X4: a page holding an [int] [n] in the Banner markup, after text with
    no [E] in it (so no earlier match can start there), makes
    [parseAvailableSeats] return [n], negative values included. *)
Theorem X4_parse_page n pre post :
  in_int n = true -> (forall a, a ∈ pre -> Ascii.eqb a "E"%char = false) ->
  parseAvailableSeats (string_of_list_ascii (pre ++ pat_prefix ++ itoa n ++ pat_suffix ++ post))
  = Ok n.
Proof.
  intros Hn Hpre. unfold parseAvailableSeats.
  rewrite list_ascii_of_string_of_list_ascii, find_submatch_skip by exact Hpre.
  rewrite find_submatch_here with (g := itoa n).
  - by apply itoa_atoi_value.
  - apply ParseFacts.match_at_spec. exists post. split; [done|]. by apply itoa_group.
Qed.

Lemma X4_parse_page_witness :
  parseAvailableSeats (string_of_list_ascii (list_ascii_of_string "<td>" ++ pat_prefix ++
    itoa (-3) ++ pat_suffix ++ list_ascii_of_string "</td>")) = Ok (-3).
Proof.
  apply X4_parse_page; [reflexivity|].
  intros a Ha. vm_compute in Ha.
  repeat (apply elem_of_cons in Ha as [->|Ha]; [reflexivity|]). by apply elem_of_nil in Ha.
Defined.

(** X5: the mail of [sendEmailNotification] is the Subject line, a blank
    line, then the body; and no split of it at a blank line ([CRLF CRLF])
    ends before the whole Subject line: the first blank line is the one
    after the Subject line, so the header block is that line alone,
    whatever the count and the CRN hold. *)
Theorem X5_message_header n crn :
  message n crn = mail_header ++ crlf ++ crlf ++ mail_body n crn /\
  forall h b, message n crn = h ++ crlf ++ crlf ++ b -> (length mail_header <= length h)%nat.
Proof.
  split; [reflexivity|]. intros h b.
  intros H. destruct (decide (length h < length mail_header)%nat) as [Hlt|]; [|lia]. exfalso.
  assert (Hm : message n crn !! length h = Some (ascii_of_nat 13)).
  { rewrite H, lookup_app_r, Nat.sub_diag by lia. reflexivity. }
  unfold message in Hm. rewrite lookup_app_l in Hm by exact Hlt.
  apply list_elem_of_lookup_2, list_elem_of_In in Hm.
  pose proof (proj1 (forallb_forall _ _) header_no_cr _ Hm) as Hc.
  vm_compute in Hc. discriminate.
Qed.

(** X6: every availability request in the trace was made by the watcher
    of its channel for that watcher's CRN, and every notification went to
    the email of the watcher of its channel, for its CRN, with a positive
    count: no subscription ever requests or mails on behalf of another. *)
Theorem X6_events_match_watcher s :
  reachable s ->
  (forall c t, ECheck c t ∈ trace s -> exists w, watchers s !! c = Some w /\ t = w_crn w) /\
  (forall c e n t ok, ENotify c e n t ok ∈ trace s ->
     exists w, watchers s !! c = Some w /\ e = w_email w /\ t = w_crn w /\ 0 < n).
Proof.
  intros Hr. pose proof (reachable_Inv2 s Hr) as J. split.
  - intros c t Hin. exact (inv2_events _ J _ Hin).
  - intros c e n t ok Hin. exact (inv2_events _ J _ Hin).
Qed.

Lemma X6_events_match_watcher_witness :
  let s := run_of (run_started ++ [ATick 0; ACheckResult 0 (Some (seats_page "5"));
                                   ANotifyResult 0 true]) in
  (exists w, watchers s !! 0%nat = Some w /\ "1" = w_crn w) /\
  (exists w, watchers s !! 0%nat = Some w /\ "a" = w_email w /\ "1" = w_crn w /\ 0 < 5).
Proof.
  intros s.
  assert (Hr : reachable s).
  { apply (exec_init_reachable (run_started ++ [ATick 0; ACheckResult 0 (Some (seats_page "5"));
                                                ANotifyResult 0 true])).
    vm_compute. reflexivity. }
  destruct (X6_events_match_watcher s Hr) as [H1 H2]. split.
  - apply (H1 0%nat "1"). apply list_elem_of_In. vm_compute.
    repeat first [left; reflexivity | right].
  - apply (H2 0%nat "a" 5 "1" true). apply list_elem_of_In. vm_compute.
    repeat first [left; reflexivity | right].
Defined.

(** X7: a channel is closed only after its watcher has returned, so the
    watcher never takes the [case <-stopChan] branch on a closed channel:
    that move is never enabled and never happens. *)
Theorem X7_closed_channel s c :
  reachable s ->
  (c ∈ closed s -> exists w, watchers s !! c = Some w /\ w_pc w = WDone) /\
  step s (ARecvClosed c) = None /\ ERecvClosed c ∉ trace s.
Proof.
  intros Hr. pose proof (reachable_Inv2 s Hr) as J.
  split; [apply (inv2_closed_done _ J)|]. split; [|apply (inv2_no_recv_closed _ J)].
  simpl. destruct (watchers s !! c) as [w|] eqn:Hw; [|done].
  destruct (w_pc w) eqn:Hp; try done.
  destruct (bool_decide (c ∈ closed s)) eqn:Hb; [|done].
  apply bool_decide_eq_true in Hb. destruct (inv2_closed_done _ J c Hb) as (w' & Hw' & Hd).
  congruence.
Qed.

Lemma X7_closed_channel_witness :
  let s := run_of (run_started ++ [AReqStop "a"; AHandler 1; AHandler 1; AHandler 1; AHandler 1]) in
  (exists w, watchers s !! 0%nat = Some w /\ w_pc w = WDone) /\ step s (ARecvClosed 0) = None.
Proof.
  intros s.
  assert (Hr : reachable s).
  { apply (exec_init_reachable (run_started ++ [AReqStop "a"; AHandler 1; AHandler 1; AHandler 1;
                                                AHandler 1])).
    vm_compute. reflexivity. }
  destruct (X7_closed_channel s 0 Hr) as (H1 & H2 & _). split; [|exact H2].
  apply H1. vm_compute. reflexivity.
Defined.

(** X8: the registry never holds the empty email and never maps two
    emails to one channel; and the send of a Stop of [e] completes only
    with the watcher that was started for [e]. *)
Theorem X8_registry s :
  reachable s ->
  reg s !! "" = None /\
  (forall e1 e2 c, reg s !! e1 = Some c -> reg s !! e2 = Some c -> e1 = e2) /\
  (forall i e c w s1, handlers s !! i = Some (HSend e c) -> watchers s !! c = Some w ->
     step s (AHandler i) = Some s1 -> w_email w = e).
Proof.
  intros Hr. pose proof (reachable_Inv s Hr) as I.
  split; [apply (inv_reg_nonempty _ I)|]. split; [apply (inv_reg_inj _ I)|].
  intros i e c w s1 Hi Hw Hs. simpl in Hs. rewrite Hi in Hs. simpl in Hs. rewrite Hw in Hs.
  destruct (w_pc w) eqn:Hp; try discriminate.
  assert (H1 : reg s !! w_email w = Some c) by (apply (inv_live _ I c w Hw); congruence).
  pose proof (inv_send _ I i e c Hi) as H2.
  exact (inv_reg_inj _ I _ _ _ H1 H2).
Qed.

Lemma X8_registry_witness :
  let s := run_of (run_started ++ [AReqStop "a"; AHandler 1]) in
  reg s !! "" = None /\ w_email (mkW "a" "1" WSelect) = "a".
Proof.
  intros s.
  assert (Hr : reachable s).
  { apply (exec_init_reachable (run_started ++ [AReqStop "a"; AHandler 1])).
    vm_compute. reflexivity. }
  destruct (X8_registry s Hr) as (H1 & _ & H3). split; [exact H1|].
  apply (H3 1%nat "a" 0%nat (mkW "a" "1" WSelect)
            (run_of (run_started ++ [AReqStop "a"; AHandler 1; AHandler 1])));
    vm_compute; reflexivity.
Defined.




End Extras.
